(** * AibaPM-Notes: the audio transcription pipeline

  A shallow embedding of the backend's transcription pipeline
  ([services/audioChunker.js], [services/transcription.js] and the
  [processMeeting] orchestrator of [routes/meetings.js]) together with
  the properties its design document states about it.

  Conventions.
  - A JavaScript number is an exact rational ([Q]).  The chunk sizes the
    program uses (300 and 600 seconds) and every multiple of them are
    exact in double precision, so are byte counts divided by [2^20].
  - A transcript text is a sequence of UTF-16 code units ([list N]); the
    messages of [Error] objects are [string]s.
  - The outside world (ffmpeg, the file system, the speech-to-text
    service) is an explicit environment; effects are threaded through a
    small state-and-exception monad that records a trace. *)

From Stdlib Require Import List String Ascii Bool Arith ZArith NArith Lia.
From Stdlib Require Import QArith Qround Lqa DecimalString DecimalNat.
From Stdlib Require Import ListDec Permutation Sorted.
Import ListNotations.

Local Open Scope Q_scope.

(** ** JavaScript numbers *)

Module Js.

(** [Math.max(a, b)] and [Math.min(a, b)]. *)
Definition Math_max (a b : Q) : Q := if Qlt_le_dec a b then b else a.
Definition Math_min (a b : Q) : Q := if Qlt_le_dec b a then b else a.

(** [Math.pow(2, n)] for a loop counter [n]. *)
Definition Math_pow2 (n : nat) : Z := (2 ^ Z.of_nat n)%Z.

(** Template-literal rendering of a non-negative integer. *)
Definition showNat (n : nat) : string := NilZero.string_of_uint (Nat.to_uint n).

End Js.

(** ** audioChunker.js: the chunk planner *)

(** One entry of a chunk plan, as pushed by [splitIntoChunks].  The source
    keeps the size as the string [sizeMB.toFixed(2)]; the byte count it is
    printed from is kept here. *)
Record Chunk : Type := mkChunk {
  index : nat;
  path : string;
  startTime : Q;
  endTime : Q;
  duration : Q;
  sizeBytes : Z;
  filename : string
}.

Definition CHUNK_DURATION_SECONDS : Q := 600.
Definition CHUNK_OVERLAP_SECONDS : Q := 2.
Definition TARGET_SIZE_MB : Q := 24.
Definition CHUNK_DIR : string := "storage/chunks/".

(** A JavaScript [Error]: only its message is ever inspected. *)
Record Error : Type := mkError { message : string }.

Inductive Outcome (A : Type) : Type :=
| Ok (a : A)
| Throw (e : Error).
Arguments Ok {A} a.
Arguments Throw {A} e.

Section Planner.

(** [ffmpeg(wavPath).setStartTime(s).setDuration(d)...save(chunkPath)]
    followed by [fs.stat(chunkPath)]: the size of the file written, or
    the message of the rejection. *)
Variable extractRange : Q -> Q -> string + Z.

Variable baseFilename : string.
Variable durationSeconds : Q.
Variable chunkDuration : Q.

Definition seekStartOf (chunkIndex : nat) (start : Q) : Q :=
  if (0 <? chunkIndex)%nat
  then Js.Math_max 0 (start - CHUNK_OVERLAP_SECONDS)
  else start.

Definition seekDurationOf (chunkIndex : nat) (actualDuration : Q) : Q :=
  actualDuration + (if (0 <? chunkIndex)%nat then CHUNK_OVERLAP_SECONDS else 0).

(** The [while (startTime < durationSeconds)] loop.  [fuel] bounds the
    number of iterations; [None] means the bound was hit with the loop
    condition still true. *)
Fixpoint splitLoop (fuel : nat) (chunks : list Chunk) (start : Q)
  : option (Outcome (list Chunk)) :=
  if Qlt_le_dec start durationSeconds then
    match fuel with
    | O => None
    | S fuel' =>
        let chunkIndex := List.length chunks in
        let endT := Js.Math_min (start + chunkDuration) durationSeconds in
        let actualDuration := endT - start in
        let seekStart := seekStartOf chunkIndex start in
        let seekDuration := seekDurationOf chunkIndex actualDuration in
        let chunkFilename :=
          (baseFilename ++ "_chunk" ++ Js.showNat chunkIndex ++ ".wav")%string in
        let chunkPath := (CHUNK_DIR ++ chunkFilename)%string in
        match extractRange seekStart seekDuration with
        | inl msg =>
            Some (Throw (mkError ("Failed to split audio: " ++ msg)))
        | inr size =>
            splitLoop fuel'
              (chunks ++ [mkChunk chunkIndex chunkPath start endT
                                  actualDuration size chunkFilename])
              (start + chunkDuration)
        end
    end
  else Some (Ok chunks).

Definition splitIntoChunks (fuel : nat) : option (Outcome (list Chunk)) :=
  splitLoop fuel [] 0.

(** The source ranges handed to ffmpeg, in order: what each materialized
    file covers. *)
Definition materialized (c : Chunk) : Q * Q :=
  let s := seekStartOf (index c) (startTime c) in
  (s, s + seekDurationOf (index c) (duration c)).

End Planner.

(** *** What a plan looks like *)

(** [Plan D C s i cs]: [cs] is the run of windows the loop produces from
    position [s] and ordinal [i] on. *)
Inductive Plan (D C : Q) : Q -> nat -> list Chunk -> Prop :=
| Plan_done s i : D <= s -> Plan D C s i []
| Plan_step s i c cs :
    s < D ->
    index c = i ->
    startTime c = s ->
    endTime c = Js.Math_min (s + C) D ->
    duration c = endTime c - startTime c ->
    Plan D C (s + C) (S i) cs ->
    Plan D C s i (c :: cs).

(** Number of iterations left when the loop stands at [s]. *)
Definition windowsLeft (D C s : Q) : nat := Z.to_nat (Qceiling ((D - s) / C)).



(** ** transcription.js: texts, segments and transcription results *)

(** A JavaScript string as its UTF-16 code units. *)
Definition jsstring : Type := list N.

(** The code units of an ASCII literal. *)
Fixpoint utf16 (s : string) : jsstring :=
  match s with
  | EmptyString => []
  | String a s' => N_of_ascii a :: utf16 s'
  end.

Definition SPACE : N := 32%N.

(** ECMAScript [WhiteSpace] and [LineTerminator] code units: what
    [String.prototype.trim] strips and what the regular-expression class
    [\s] matches. *)
Definition isWhiteSpace (c : N) : bool :=
  ((9 <=? c) && (c <=? 13) || (c =? 32) || (c =? 160) || (c =? 5760)
   || (8192 <=? c) && (c <=? 8202) || (c =? 8232) || (c =? 8233)
   || (c =? 8239) || (c =? 8287) || (c =? 12288) || (c =? 65279))%N.

Fixpoint trimStart (s : jsstring) : jsstring :=
  match s with
  | [] => []
  | c :: s' => if isWhiteSpace c then trimStart s' else s
  end.

(** [s.trimEnd()]: a code unit stays when something after it stays or when
    it is not white space. *)
Fixpoint trimEnd (s : jsstring) : jsstring :=
  match s with
  | [] => []
  | c :: s' =>
      match trimEnd s' with
      | [] => if isWhiteSpace c then [] else [c]
      | r => c :: r
      end
  end.

(** [s.trim()] *)
Definition trim (s : jsstring) : jsstring := trimEnd (trimStart s).

(** [s.replace(/\s+/g, ' ')]: every maximal run of white space becomes one
    space.  [inRun] tells that the previous code unit was white space. *)
Fixpoint collapseFrom (inRun : bool) (s : jsstring) : jsstring :=
  match s with
  | [] => []
  | c :: s' =>
      if isWhiteSpace c
      then (if inRun then collapseFrom true s' else SPACE :: collapseFrom true s')
      else c :: collapseFrom false s'
  end.

Definition collapseSpaces (s : jsstring) : jsstring := collapseFrom false s.

(** One entry of [segments] in a [verbose_json] response.  [seg_id] stands
    for the fields the pipeline carries along untouched. *)
Record Segment : Type := mkSegment {
  seg_id : Z;
  seg_start : Q;
  seg_end : Q;
  seg_text : jsstring
}.

(** What [transcribeSingleFile] and [mergeTranscripts] return.  A language
    that is [undefined] is [None]. *)
Record Transcription : Type := mkTranscription {
  tr_text : jsstring;
  tr_language : option string;
  tr_duration : Q;
  tr_segments : list Segment
}.

(** An element of the array [transcribeChunks] builds:
    [{ chunk, transcription }]. *)
Record ChunkResult : Type := mkChunkResult {
  chunk : Chunk;
  transcription : Transcription
}.

(** [x || 'en'] on a value that is a string or [undefined]. *)
Definition orEn (l : option string) : string :=
  match l with
  | None => "en"
  | Some s => if String.eqb s "" then "en" else s
  end.

(** The [segments.map(...)] of [mergeTranscripts]: a copy of the segment
    with [start] and [end] moved by the chunk's [startTime]. *)
Definition adjustSegment (c : Chunk) (segment : Segment) : Segment :=
  mkSegment (seg_id segment)
            (seg_start segment + startTime c)
            (seg_end segment + startTime c)
            (seg_text segment).

(** State of the [for ... of] loop of [mergeTranscripts]. *)
Record MergeAcc : Type := mkMergeAcc {
  fullText : jsstring;
  allSegments : list Segment;
  totalDuration : Q
}.

Definition mergeStep (acc : MergeAcc) (r : ChunkResult) : MergeAcc :=
  mkMergeAcc
    (fullText acc ++ tr_text (transcription r) ++ [SPACE])
    (match tr_segments (transcription r) with
     | [] => allSegments acc
     | segs => allSegments acc ++ map (adjustSegment (chunk r)) segs
     end)
    (Js.Math_max (totalDuration acc) (endTime (chunk r))).

Definition mergeTranscripts (chunkResults : list ChunkResult) : Transcription :=
  let language :=
    orEn (match chunkResults with
          | [] => None
          | r :: _ => tr_language (transcription r)
          end) in
  let acc := fold_left mergeStep chunkResults (mkMergeAcc [] [] 0) in
  mkTranscription (collapseSpaces (trim (fullText acc)))
                  (Some language)
                  (totalDuration acc)
                  (allSegments acc).

(** ** The outside world *)

(** What the OpenAI client (or a file-system call inside the same [try])
    throws: [error.status], [error.code] and [error.message]. *)
Record ApiError : Type := mkApiError {
  status : option Z;
  code : option string;
  api_message : string
}.

(** The body of a successful [verbose_json] response; [segments] may be
    absent. *)
Record WhisperResponse : Type := mkWhisperResponse {
  w_text : jsstring;
  w_language : option string;
  w_duration : Q;
  w_segments : option (list Segment)
}.

Inductive SttReply : Type :=
| Recognized (r : WhisperResponse)
| Rejected (e : ApiError).

(** [metadata.format] as ffprobe reports it; a duration that does not
    parse is [None]. *)
Record Format : Type := mkFormat {
  format_duration : option Q;
  format_size : Z
}.

Record Env : Type := mkEnv {
  (** [process.env.OPENAI_API_KEY] is set *)
  apiKeyConfigured : bool;
  (** outcome of the [n]-th pass through the [try] of [transcribeSingleFile] *)
  stt : nat -> SttReply;
  (** [fs.stat(audioPath)] on the uploaded file: its size in bytes *)
  statAudio : string + Z;
  (** [ffprobe] on the uploaded file *)
  probeAudio : string + Format;
  (** [convertToWav] and the size of the file it wrote *)
  convertToWav : string + Z;
  (** [ffprobe] on the converted file *)
  probeWav : string + Format;
  (** ffmpeg extraction of a range of the converted file *)
  extractRange : Q -> Q -> string + Z;
  (** [Date.now()] *)
  Date_now : nat
}.

(** Progress reports handed to [progressCallback]. *)
Inductive Progress : Type :=
| ChunkProgress (current total chunkIndex : nat)
| PhaseProgress (status message : string).

(** Observable effects, in the order they happen. *)
Inductive Event : Type :=
| EvTranscribe (audioPath : string)
| EvSleep (ms : Z)
| EvProgress (p : Progress)
| EvConvert (wavPath : string)
| EvSplit (chunkDuration : Q)
| EvUnlink (path : string).

Record World : Type := mkWorld {
  requests : nat;
  trace : list Event
}.

(** ** A state-and-exception monad for the asynchronous code *)

Definition M (A : Type) : Type := World -> Outcome A * World.

Definition ret {A} (a : A) : M A := fun w => (Ok a, w).

Definition throw {A} (msg : string) : M A := fun w => (Throw (mkError msg), w).

Definition rethrow {A} (e : Error) : M A := fun w => (Throw e, w).

Definition bind {A B} (m : M A) (k : A -> M B) : M B :=
  fun w =>
    match m w with
    | (Ok a, w') => k a w'
    | (Throw e, w') => (Throw e, w')
    end.

(** [try { m } catch (e) { ... }] with the outcome reified. *)
Definition try_ {A} (m : M A) : M (Outcome A) :=
  fun w => let (r, w') := m w in (Ok r, w').

Definition emit (e : Event) : M unit :=
  fun w => (Ok tt, mkWorld (requests w) (trace w ++ [e])).

Declare Scope js_scope.
Delimit Scope js_scope with js.
Notation "x <- m ;; k" := (bind m (fun x => k))
  (at level 61, m at next level, right associativity) : js_scope.
Notation "m ;;; k" := (bind m (fun _ => k))
  (at level 61, right associativity) : js_scope.
Local Open Scope js_scope.

(** [await new Promise(resolve => setTimeout(resolve, delay))] *)
Definition sleep (delay : Z) : M unit := emit (EvSleep delay).

(** [if (progressCallback) progressCallback(p)] *)
Definition report (progressCallback : bool) (p : Progress) : M unit :=
  if progressCallback then emit (EvProgress p) else ret tt.

(** [s.includes(sub)] *)
Definition includes (s sub : string) : bool :=
  match String.index 0 sub s with
  | Some _ => true
  | None => false
  end.

Definition dquote : string := String (ascii_of_nat 34) EmptyString.

Definition SIZE_THRESHOLD_MB : Q := 24.

Definition PAYLOAD_TOO_LARGE : string := "PAYLOAD_TOO_LARGE".
Definition RECHUNK_NEEDED : string := "RECHUNK_NEEDED".

Definition hasStatus (error : ApiError) (n : Z) : bool :=
  match status error with
  | Some s => (s =? n)%Z
  | None => false
  end.

Definition hasCode (error : ApiError) (c : string) : bool :=
  match code error with
  | Some s => String.eqb s c
  | None => false
  end.

Definition checkAPIQuotaError (error : ApiError) : option string :=
  if hasStatus error 429 then
    Some ("OpenAI API rate limit exceeded. Please wait a few minutes and try "
          ++ dquote ++ "Reprocess Meeting" ++ dquote)%string
  else if hasStatus error 401 then
    Some "OpenAI API key is invalid or expired. Please check your .env file"%string
  else if hasStatus error 402 || hasCode error "insufficient_quota" then
    Some "OpenAI account has insufficient credits. Please add credits at platform.openai.com/account/billing"%string
  else if includes (api_message error) "quota" then
    Some "OpenAI API quota exceeded. Check your usage at platform.openai.com/account/usage"%string
  else if includes (api_message error) "billing" then
    Some "OpenAI billing issue detected. Please check platform.openai.com/account/billing"%string
  else None.

(** The [catch] clause of [transcribeSingleFile]: the message of the
    [Error] it throws in place of the one it caught. *)
Definition classify (error : ApiError) : string :=
  match checkAPIQuotaError error with
  | Some quotaError => quotaError
  | None =>
      if hasStatus error 413 || includes (api_message error) "413"
      then PAYLOAD_TOO_LARGE
      else ("Failed to transcribe audio: " ++ api_message error)%string
  end.

(** ** transcription.js: client, driver and pipeline *)

Section Pipeline.

Variable env : Env.

Definition transcribeSingleFile (audioPath : string) : M Transcription :=
  fun w =>
    if negb (apiKeyConfigured env) then
      (Throw (mkError "OpenAI API key not configured"), w)
    else
      let w' := mkWorld (S (requests w)) (trace w ++ [EvTranscribe audioPath]) in
      match stt env (requests w) with
      | Recognized r =>
          (Ok (mkTranscription (w_text r) (w_language r) (w_duration r)
                               (match w_segments r with
                                | Some segs => segs
                                | None => []
                                end)), w')
      | Rejected error => (Throw (mkError (classify error)), w')
      end.

Definition MAX_RETRIES : nat := 5.

(** [Math.pow(2, attempt) * 2500] *)
Definition retryDelay (attempt : nat) : Z := (Js.Math_pow2 attempt * 2500)%Z.

(** How the retry loop of one chunk ends: [retried = true], or
    [retryWithSmallerChunks = true], or neither. *)
Inductive RetryOutcome : Type :=
| Retried (t : Transcription)
| TooLarge
| GaveUp.

(** [for (let attempt = ...; attempt <= MAX_RETRIES; attempt++)], with
    [remaining = MAX_RETRIES + 1 - attempt]. *)
Fixpoint retryLoop (c : Chunk) (remaining attempt : nat) : M RetryOutcome :=
  match remaining with
  | O => ret GaveUp
  | S remaining' =>
      sleep (retryDelay attempt) ;;;
      r <- try_ (transcribeSingleFile (path c)) ;;
      match r with
      | Ok t => ret (Retried t)
      | Throw retryError =>
          if String.eqb (message retryError) PAYLOAD_TOO_LARGE
          then ret TooLarge
          else retryLoop c remaining' (S attempt)
      end
  end.

Definition exhaustedMessage (c : Chunk) : string :=
  ("Failed to transcribe chunk " ++ Js.showNat (index c) ++ " after "
   ++ Js.showNat MAX_RETRIES
   ++ " retries. This may be due to network instability or OpenAI API issues. Try again later or check your internet connection.")%string.

(** The [for] loop of [transcribeChunks] from position [i] on; the result
    carries [results] and [retryWithSmallerChunks]. *)
Fixpoint chunkLoop (progressCallback : bool) (total : nat)
         (rest : list Chunk) (i : nat) (results : list ChunkResult)
  : M (list ChunkResult * bool) :=
  match rest with
  | [] => ret (results, false)
  | c :: rest' =>
      report progressCallback (ChunkProgress (i + 1) total (index c)) ;;;
      r <- try_ (transcribeSingleFile (path c)) ;;
      match r with
      | Ok t =>
          chunkLoop progressCallback total rest' (S i)
                    (results ++ [mkChunkResult c t])
      | Throw error =>
          if String.eqb (message error) PAYLOAD_TOO_LARGE then
            ret (results, true)
          else
            o <- retryLoop c MAX_RETRIES 1 ;;
            match o with
            | GaveUp => throw (exhaustedMessage c)
            | TooLarge => ret (results, true)
            | Retried t =>
                chunkLoop progressCallback total rest' (S i)
                          (results ++ [mkChunkResult c t])
            end
      end
  end.

Definition transcribeChunks (chunks : list Chunk) (progressCallback : bool)
  : M (list ChunkResult) :=
  p <- chunkLoop progressCallback (List.length chunks) chunks 0 [] ;;
  if snd p then throw RECHUNK_NEEDED else ret (fst p).

(** *** audioChunker.js, as the pipeline calls it *)

(** [splitIntoChunks], run for as many iterations as the loop needs. *)
Definition splitIntoChunksM (wavBase : string) (durationSeconds chunkDuration : Q)
  : M (list Chunk) :=
  emit (EvSplit chunkDuration) ;;;
  match splitIntoChunks (extractRange env) wavBase durationSeconds chunkDuration
                        (windowsLeft durationSeconds chunkDuration 0) with
  | Some (Ok chunks) => ret chunks
  | Some (Throw e) => rethrow e
  | None => throw "Failed to split audio: the loop does not end"
  end.

Definition rechunkWithSmallerSize (wavBase : string) (durationSeconds : Q)
           (reducedChunkDuration : Q) : M (list Chunk) :=
  splitIntoChunksM wavBase durationSeconds reducedChunkDuration.

Fixpoint cleanupChunks (chunkPaths : list string) : M unit :=
  match chunkPaths with
  | [] => ret tt
  | p :: rest => emit (EvUnlink p) ;;; cleanupChunks rest
  end.

(** The object [processLargeAudio] resolves to. *)
Record Processed : Type := mkProcessed {
  needsChunking : bool;
  wavBase : string;
  p_duration : Q;
  wavSizeMB : Q;
  chunks : list Chunk
}.

Definition wavPathOf (base : string) : string := (CHUNK_DIR ++ base ++ ".wav")%string.

Definition MB (bytes : Z) : Q := inject_Z bytes / inject_Z (1024 * 1024).

(** [parseFloat(metadata.format.duration) || 0] *)
Definition durationOr0 (f : Format) : Q :=
  match format_duration f with
  | Some d => d
  | None => 0
  end.

(** [fileSizeMB >= 50 ? 300 : CHUNK_DURATION_SECONDS] *)
Definition initialChunkDuration (fileSizeMB : Q) : Q :=
  if Qlt_le_dec fileSizeMB 50 then CHUNK_DURATION_SECONDS else 300.

(** Lift an external call that resolves or rejects with a message. *)
Definition external {A} (prefix : string) (r : string + A) : M A :=
  match r with
  | inl msg => throw (prefix ++ msg)
  | inr a => ret a
  end.

Definition processLargeAudio (meetingId : nat) : M Processed :=
  metadata <- external "Failed to probe audio file: " (probeAudio env) ;;
  let fileSizeMB := MB (format_size metadata) in
  let base := ("meeting-" ++ Js.showNat meetingId ++ "-converted")%string in
  emit (EvConvert (wavPathOf base)) ;;;
  wavSize <- external "FFmpeg conversion failed: " (convertToWav env) ;;
  let wavSizeMB := MB wavSize in
  durationSeconds <-
    (if Qeq_bool (durationOr0 metadata) 0 then
       wavMetadata <- external "Failed to probe audio file: " (probeWav env) ;;
       if Qeq_bool (durationOr0 wavMetadata) 0
       then throw "Could not determine audio duration from either source or converted file"
       else ret (durationOr0 wavMetadata)
     else ret (durationOr0 metadata)) ;;
  if Qle_bool wavSizeMB TARGET_SIZE_MB then
    ret (mkProcessed false base durationSeconds wavSizeMB [])
  else
    let chunkDuration := initialChunkDuration fileSizeMB in
    chunks <- splitIntoChunksM base durationSeconds chunkDuration ;;
    ret (mkProcessed true base durationSeconds wavSizeMB chunks).

(** [meetingId || Date.now()] *)
Definition meetingIdOrNow (meetingId : option nat) : nat :=
  match meetingId with
  | Some (S n) => S n
  | _ => Date_now env
  end.

(** The drive over the plan and, on [RECHUNK_NEEDED], the one re-plan and
    second drive; resolves to the results and the plan they belong to. *)
Definition driveWithRechunk (processed : Processed) (progressCallback : bool)
  : M (list ChunkResult * list Chunk) :=
  r <- try_ (transcribeChunks (chunks processed) progressCallback) ;;
  match r with
  | Ok chunkResults => ret (chunkResults, chunks processed)
  | Throw error =>
      if String.eqb (message error) RECHUNK_NEEDED then
        report progressCallback
               (PhaseProgress "processing" "Re-chunking with smaller segments...") ;;;
        cleanupChunks (map path (chunks processed)) ;;;
        smallerChunks <- rechunkWithSmallerSize (wavBase processed)
                                                (p_duration processed) 300 ;;
        chunkResults <- transcribeChunks smallerChunks progressCallback ;;
        ret (chunkResults, smallerChunks)
      else rethrow error
  end.

(** [transcribeWithRetry] from the comment "File is large or direct
    transcription failed - use chunking" on. *)
Definition chunkingPath (meetingId : option nat) (progressCallback : bool)
  : M Transcription :=
  report progressCallback
         (PhaseProgress "processing" "Converting and splitting audio...") ;;;
  processed <- processLargeAudio (meetingIdOrNow meetingId) ;;
  if negb (needsChunking processed) then
    result <- transcribeSingleFile (wavPathOf (wavBase processed)) ;;
    emit (EvUnlink (wavPathOf (wavBase processed))) ;;;
    ret result
  else
    p <- driveWithRechunk processed progressCallback ;;
    report progressCallback (PhaseProgress "merging" "Merging transcripts...") ;;;
    let mergedResult := mergeTranscripts (fst p) in
    cleanupChunks (map path (snd p)) ;;;
    emit (EvUnlink (wavPathOf (wavBase processed))) ;;;
    ret mergedResult.

Definition transcribeWithRetry (audioPath : string) (meetingId : option nat)
           (progressCallback : bool) : M Transcription :=
  if negb (apiKeyConfigured env) then throw "OpenAI API key not configured"
  else
    size <- external "" (statAudio env) ;;
    let fileSizeMB := MB size in
    if Qle_bool fileSizeMB SIZE_THRESHOLD_MB then
      r <- try_ (transcribeSingleFile audioPath) ;;
      match r with
      | Ok t => ret t
      | Throw error =>
          if negb (String.eqb (message error) PAYLOAD_TOO_LARGE)
          then rethrow error
          else chunkingPath meetingId progressCallback
      end
    else chunkingPath meetingId progressCallback.

End Pipeline.

(** ** routes/meetings.js: the orchestrator *)

(** [calculateTimeout]: milliseconds allowed for the whole processing, from
    [fs.stat(audioPath)]. *)
Definition calculateTimeout (stat : string + Z) : Z :=
  match stat with
  | inr size =>
      let fileSizeMB := MB size in
      if Qlt_le_dec fileSizeMB 10 then 5 * 60 * 1000
      else if Qlt_le_dec fileSizeMB 30 then 10 * 60 * 1000
      else if Qlt_le_dec fileSizeMB 50 then 15 * 60 * 1000
      else if Qlt_le_dec fileSizeMB 80 then 30 * 60 * 1000
      else 45 * 60 * 1000
  | inl _ => 10 * 60 * 1000
  end%Z.

(** A row of the [meetings] table. *)
Record Meeting : Type := mkMeeting {
  title : string;
  date : string;
  m_duration : option Z;
  audio_path : option string;
  transcript_path : option string;
  summary_path : option string
}.

(** The [meetings] table, by [id]. *)
Definition Db : Type := nat -> option Meeting.

Definition getMeetingById (db : Db) (id : nat) : option Meeting := db id.

(** [UPDATE meetings SET ... WHERE id = ?] *)
Definition updateMeeting (db : Db) (row : Meeting) (id : nat) : Db :=
  fun k => if (k =? id)%nat
           then match db k with Some _ => Some row | None => None end
           else db k.

(** Outcomes of the operations [processMeeting] awaits. *)
Record Services : Type := mkServices {
  (** [transcribeWithRetry(audioPath, meetingId)] *)
  transcribed : Outcome Transcription;
  (** [saveTranscript]: the time stamp in the file name, unless it fails *)
  saveTranscript : option nat;
  (** [analyzeMeeting]: rejects with a message or resolves *)
  analyzeMeeting : option string;
  (** [saveSummary]: rejects with a message or resolves to the path *)
  saveSummary : string + string;
  (** [buildSearchIndex] succeeds *)
  buildSearchIndex : bool
}.

(** Where the body of the wrapped [async] function is suspended. *)
Inductive Phase : Type :=
| Transcribing
| SavingTranscript
| Analyzing
| SavingSummary
| Indexing.

(** The wrapped [async] function: suspended at an [await], returned, or
    thrown. *)
Inductive Inner : Type :=
| Suspended (p : Phase)
| Completed
| Failed (e : Error).

(** The promise [processMeeting] returns. *)
Inductive Outer : Type :=
| Pending
| Resolved
| RejectedWith (e : Error).

Record Orch : Type := mkOrch {
  db : Db;
  inner : Inner;
  outer : Outer
}.

(** What the event loop runs next: the operation the body waits for
    settles, or the [setTimeout] callback of [withTimeout] fires. *)
Inductive Tick : Type :=
| Resume
| Timer.

Definition showZ (z : Z) : string := NilZero.string_of_int (Z.to_int z).

Section Orchestrator.

Variable sv : Services.
Variable meetingId : nat.
Variable PROCESSING_TIMEOUT : Z.

Definition txtPath (timestamp : nat) : string :=
  ("/storage/transcripts/meeting-" ++ Js.showNat meetingId ++ "-"
   ++ Js.showNat timestamp ++ ".txt")%string.

(** The rejection [withTimeout] schedules. *)
Definition timeoutError : Error :=
  mkError ("Meeting " ++ Js.showNat meetingId ++ " processing" ++ " timed out after "
           ++ showZ (PROCESSING_TIMEOUT / 1000) ++ "s")%string.

(** "Step 5: Updating meeting record" *)
Definition recordSuccess (d : Db) (timestamp : nat) (summaryPath : string)
  : Outcome Db :=
  match getMeetingById d meetingId, transcribed sv with
  | Some meeting, Ok t =>
      Ok (updateMeeting d
            (mkMeeting (title meeting) (date meeting)
                       (Some (Qfloor (tr_duration t)))
                       (audio_path meeting)
                       (Some (txtPath timestamp))
                       (Some summaryPath))
            meetingId)
  | _, _ => Throw (mkError "Cannot read properties of undefined (reading 'title')")
  end.

(** The [catch] block of [processMeeting]: mark the meeting with the error;
    a failure to do so is logged and dropped. *)
Definition recordFailure (d : Db) (error : Error) : Db :=
  match getMeetingById d meetingId with
  | Some meeting =>
      updateMeeting d
        (mkMeeting (title meeting) (date meeting) (Some 0%Z) (audio_path meeting)
                   (Some ("ERROR: " ++ message error)%string) None)
        meetingId
  | None => d
  end.

(** The body of the wrapped function, from the [await] it is suspended on
    to the next one. *)
Definition resume (p : Phase) (d : Db) : Inner * Db :=
  match p with
  | Transcribing =>
      match transcribed sv with
      | Ok _ => (Suspended SavingTranscript, d)
      | Throw e => (Failed e, d)
      end
  | SavingTranscript =>
      match saveTranscript sv with
      | Some _ => (Suspended Analyzing, d)
      | None => (Failed (mkError "Failed to save transcript"), d)
      end
  | Analyzing =>
      match analyzeMeeting sv with
      | None => (Suspended SavingSummary, d)
      | Some msg => (Failed (mkError msg), d)
      end
  | SavingSummary =>
      match saveSummary sv, saveTranscript sv with
      | inr summaryPath, Some timestamp =>
          match recordSuccess d timestamp summaryPath with
          | Ok d' => (Suspended Indexing, d')
          | Throw e => (Failed e, d)
          end
      | inl msg, _ => (Failed (mkError msg), d)
      | _, None => (Failed (mkError "Failed to save transcript"), d)
      end
  | Indexing =>
      if buildSearchIndex sv then (Completed, d)
      else (Failed (mkError "Failed to build search index"), d)
  end.

(** [Promise.race] settles with the first of its arguments to settle; the
    [catch] of [processMeeting] then runs.  Nothing stops the other
    argument. *)
Definition settle (o : Outer) (i : Inner) (d : Db) : Outer * Db :=
  match o, i with
  | Pending, Completed => (Resolved, d)
  | Pending, Failed e => (RejectedWith e, recordFailure d e)
  | _, _ => (o, d)
  end.

Definition tick (s : Orch) (t : Tick) : Orch :=
  match t with
  | Resume =>
      match inner s with
      | Suspended p =>
          let (i, d) := resume p (db s) in
          let (o, d') := settle (outer s) i d in
          mkOrch d' i o
      | _ => s
      end
  | Timer =>
      match outer s with
      | Pending =>
          mkOrch (recordFailure (db s) timeoutError) (inner s)
                 (RejectedWith timeoutError)
      | _ => s
      end
  end.

(** [processMeeting] under a schedule of the event loop. *)
Definition processMeeting (d : Db) (schedule : list Tick) : Orch :=
  fold_left tick schedule (mkOrch d (Suspended Transcribing) Pending).

End Orchestrator.

(** The transcript slot holds an error marker. *)
Definition isErrorSentinel (m : Meeting) : bool :=
  match transcript_path m with
  | Some p => String.prefix "ERROR: " p
  | None => false
  end.

(** ** The merge, in the words of its contract *)

(** [texts.join(' ')] *)
Fixpoint joinSpace (texts : list jsstring) : jsstring :=
  match texts with
  | [] => []
  | [t] => t
  | t :: rest => t ++ SPACE :: joinSpace rest
  end.

(** White-space separated words of a text, and their rejoining with single
    spaces. *)
Fixpoint words (s : jsstring) : list jsstring :=
  match s with
  | [] => []
  | c :: s' =>
      if isWhiteSpace c then words s'
      else match s' with
           | [] => [[c]]
           | c' :: _ =>
               if isWhiteSpace c' then [c] :: words s'
               else match words s' with
                    | w :: ws => (c :: w) :: ws
                    | [] => [[c]]
                    end
           end
  end.

Definition unwords (ws : list jsstring) : jsstring := joinSpace ws.

Definition textsOf (rs : list ChunkResult) : list jsstring :=
  map (fun r => tr_text (transcription r)) rs.

(** Every segment of every chunk, moved by its chunk's [startTime]. *)
Definition shiftedSegments (rs : list ChunkResult) : list Segment :=
  flat_map (fun r => map (adjustSegment (chunk r)) (tr_segments (transcription r))) rs.



(** A merged transcript handed back to [mergeTranscripts]: it stands for
    the stretch [[0, duration)] of the recording. *)
Definition asChunkResult (t : Transcription) : ChunkResult :=
  mkChunkResult (mkChunk 0 "" 0 (tr_duration t) (tr_duration t) 0 "") t.

Fixpoint sortedBy {A} (key : A -> Q) (l : list A) : Prop :=
  match l with
  | a :: ((b :: _) as rest) => key a <= key b /\ sortedBy key rest
  | _ => True
  end.

(** Non-decreasing but for steps back of at most [slack]. *)
Fixpoint sortedUpTo {A} (slack : Q) (key : A -> Q) (l : list A) : Prop :=
  match l with
  | a :: ((b :: _) as rest) => key a <= key b + slack /\ sortedUpTo slack key rest
  | _ => True
  end.

(** Seconds of audio in the file materialized for a chunk. *)
Definition fileSeconds (c : Chunk) : Q := seekDurationOf (index c) (duration c).

(** What a response for a chunk file looks like: segments in order of
    [start], each starting within the audio of the file. *)
Definition wellTimed (r : ChunkResult) : Prop :=
  sortedBy seg_start (tr_segments (transcription r))
  /\ Forall (fun s => 0 <= seg_start s /\ seg_start s <= fileSeconds (chunk r))
            (tr_segments (transcription r)).

(** Every segment starts within the window its chunk contributes. *)
Definition withinWindow (r : ChunkResult) : Prop :=
  Forall (fun s => seg_start s <= duration (chunk r)) (tr_segments (transcription r)).

(** *** A recording of 1800 s cut every 600 s *)

Definition chunk0 : Chunk :=
  mkChunk 0 "storage/chunks/m_chunk0.wav" 0 600 600 0 "m_chunk0.wav".
Definition chunk1 : Chunk :=
  mkChunk 1 "storage/chunks/m_chunk1.wav" 600 1200 600 0 "m_chunk1.wav".
Definition chunk2 : Chunk :=
  mkChunk 2 "storage/chunks/m_chunk2.wav" 1200 1800 600 0 "m_chunk2.wav".

Definition plan3 : list Chunk := [chunk0; chunk1; chunk2].

Definition heard (c : Chunk) (word : string) (from to : Q) : ChunkResult :=
  mkChunkResult c (mkTranscription (utf16 word) (Some "english"%string) (fileSeconds c)
                                   [mkSegment 0 from to (utf16 word)]).

(** Every chunk has one segment near the start of its file. *)
Definition results3 : list ChunkResult :=
  map (fun c => heard c "word" 1 2) plan3.

(** The file of chunk 1 holds 602 s of audio; its segment is the last
    second of it. *)
Definition results3_late : list ChunkResult :=
  [heard chunk0 "one" 1 2; heard chunk1 "two" 601 602; heard chunk2 "three" 0 1].

(** ** Auxiliary notions used in the statements *)

Definition MiB : Z := 1048576.

(** A white-space free, non-empty text. *)
Definition isWord (w : jsstring) : Prop :=
  w <> [] /\ Forall (fun c => isWhiteSpace c = false) w.

(** The space [collapseFrom] puts before the first word. *)
Definition lead (inRun : bool) (s : jsstring) : jsstring :=
  match s with
  | c :: _ => if isWhiteSpace c && negb inRun then [SPACE] else []
  | [] => []
  end.

(** The world once [transcribeSingleFile] has gone through its [try]. *)
Definition afterAttempt (audioPath : string) (w : World) : World :=
  mkWorld (S (requests w)) (trace w ++ [EvTranscribe audioPath]).

(** The delays slept, in order. *)
Fixpoint sleepsOf (tr : list Event) : list Z :=
  match tr with
  | [] => []
  | EvSleep ms :: rest => ms :: sleepsOf rest
  | _ :: rest => sleepsOf rest
  end.

(** The chunk durations of the plans made, in order. *)
Fixpoint splitsOf (tr : list Event) : list Q :=
  match tr with
  | [] => []
  | EvSplit d :: rest => d :: splitsOf rest
  | _ :: rest => splitsOf rest
  end.

(** The files sent for transcription, in order. *)
Fixpoint attemptsOf (tr : list Event) : list string :=
  match tr with
  | [] => []
  | EvTranscribe p :: rest => p :: attemptsOf rest
  | _ :: rest => attemptsOf rest
  end.

(** What the driver leaves in the trace for the retries [attempt],
    [attempt + 1], ... of a chunk. *)
Definition retryEvents (c : Chunk) (attempt count : nat) : list Event :=
  flat_map (fun a => [EvSleep (retryDelay a); EvTranscribe (path c)]) (seq attempt count).

(** The request numbered [n] is rejected and the rejection does not
    classify as [PAYLOAD_TOO_LARGE]. *)
Definition failsOtherwise (env : Env) (n : nat) : Prop :=
  exists error, stt env n = Rejected error /\ classify error <> PAYLOAD_TOO_LARGE.

(** What [report] leaves in the trace at the start of an iteration. *)
Definition progressEvents (progressCallback : bool) (p : Progress) : list Event :=
  if progressCallback then [EvProgress p] else [].

(** Where the driver stands after a chunk used up its retries. *)
Definition exhaustedWorld (progressCallback : bool) (total i : nat) (c : Chunk)
           (w : World) : World :=
  mkWorld (requests w + 6)
          (trace w ++ progressEvents progressCallback (ChunkProgress (i + 1) total (index c))
                   ++ EvTranscribe (path c) :: retryEvents c 1 MAX_RETRIES).

(** A computation that only adds to the trace. *)
Definition appends {A} (m : M A) : Prop :=
  forall w, exists tail, trace (snd (m w)) = trace w ++ tail.

(** The rejections the client reports with a message about the key, the
    credits, the quota or the billing. *)
Definition unauthorizedOrQuota (error : ApiError) : Prop :=
  hasStatus error 401 = true \/ hasStatus error 402 = true
  \/ hasCode error "insufficient_quota" = true
  \/ includes (api_message error) "quota" = true
  \/ includes (api_message error) "billing" = true.

(** A rate limit (429), or a rejection none of the rules recognizes. *)
Definition rateLimitedOrUnknown (error : ApiError) : Prop :=
  hasStatus error 429 = true
  \/ (checkAPIQuotaError error = None
      /\ hasStatus error 413 = false
      /\ includes (api_message error) "413" = false).

(** A computation that plans nothing. *)
Definition plansNothing {A} (m : M A) : Prop :=
  forall w, splitsOf (trace (snd (m w))) = splitsOf (trace w).

(** ** Scripted environments *)

Definition reply (word : string) : SttReply :=
  Recognized (mkWhisperResponse (utf16 word) (Some "english"%string) 1
                                (Some [mkSegment 0 0 1 (utf16 word)])).

Definition http (n : Z) (msg : string) : SttReply :=
  Rejected (mkApiError (Some n) None msg).

(** The service answers with the replies of [script], in order, and
    recognizes "ok" afterwards. *)
Definition scripted (script : list SttReply) : nat -> SttReply :=
  fun n => nth n script (reply "ok").

(** An upload of [sizeMiB] MiB and [seconds] seconds whose conversion
    yields a [wavMiB] MiB file; every ffmpeg and ffprobe call succeeds. *)
Definition upload (sizeMiB wavMiB : Z) (seconds : Q) (script : list SttReply) : Env :=
  mkEnv true (scripted script)
        (inr (sizeMiB * MiB)%Z)
        (inr (mkFormat (Some seconds) (sizeMiB * MiB)))
        (inr (wavMiB * MiB)%Z)
        (inr (mkFormat (Some seconds) (wavMiB * MiB)))
        (fun _ _ => inr 0%Z)
        0.

Definition world0 : World := mkWorld 0 [].

(** A 40 MiB upload of half an hour, cut into [plan3]; the service
    recognizes chunk 0 and then answers 500 six times. *)
Definition env_flaky : Env :=
  upload 40 30 1800
         [ reply "one";
           http 500 "Internal server error"; http 500 "Internal server error";
           http 500 "Internal server error"; http 500 "Internal server error";
           http 500 "Internal server error"; http 500 "Internal server error" ].

(** The same upload; the service answers 401 to the first request and
    recognizes every later one. *)
Definition env_401 : Env :=
  upload 40 30 1800
         [ http 401 "Incorrect API key provided";
           reply "one"; reply "two"; reply "three" ].

(** A 60 MiB upload of a quarter of an hour whose first chunk is answered
    413 once. *)
Definition env_60MiB : Env :=
  upload 60 30 900 [http 413 "Request Entity Too Large"].

(** A 40 MiB upload answered 413 on the first chunk of the first plan and
    again on the second chunk of the second plan. *)
Definition env_413_twice : Env :=
  upload 40 30 900
         [ http 413 "Request Entity Too Large"; reply "a";
           http 413 "Request Entity Too Large" ].

(** A 5 MiB upload of five minutes that the service recognizes at once;
    saving, analysis and indexing all succeed. *)
Definition env_5MiB : Env := upload 5 9 300 [reply "hello"].

Definition services_ok : Services :=
  mkServices (fst (transcribeWithRetry env_5MiB "uploads/a.webm" (Some 7%nat) false world0))
             (Some 1234%nat) None (inr "/storage/summaries/meeting-7-1234.json"%string)
             true.

(** The table holds meeting 7, just created by [POST /api/meetings]. *)
Definition db7 : Db :=
  fun id => if (id =? 7)%nat
            then Some (mkMeeting "Weekly sync" "2025-01-01" None
                                 (Some "uploads/a.webm"%string) None None)
            else None.

(** The deadline of meeting 7. *)
Definition timeout7 : Z := calculateTimeout (statAudio env_5MiB).

(** A 10 MiB upload whose direct transcription is answered 413. *)
Definition env_10MiB_413 : Env :=
  upload 10 30 900 [http 413 "Request Entity Too Large"].


Definition processed3 : Processed := mkProcessed true "m" 1800 30 plan3.

(** ** Further notions used in the statements *)

(** The two arguments [splitIntoChunks] hands to ffmpeg for a chunk:
    [setStartTime] and [setDuration]. *)
Definition seekArgs (c : Chunk) : Q * Q :=
  (seekStartOf (index c) (startTime c), seekDurationOf (index c) (duration c)).

(** The files unlinked, in order. *)
Fixpoint unlinksOf (tr : list Event) : list string :=
  match tr with
  | [] => []
  | EvUnlink p :: rest => p :: unlinksOf rest
  | _ :: rest => unlinksOf rest
  end.

(** Milliseconds slept in all. *)
Definition totalSleep (tr : list Event) : Z := fold_right Z.add 0%Z (sleepsOf tr).

(** The name [splitIntoChunks] gives the file of its entry number [i]. *)
Definition chunkFilenameOf (baseFilename : string) (i : nat) : string :=
  (baseFilename ++ "_chunk" ++ Js.showNat i ++ ".wav")%string.

(** A computation that deletes no file. *)
Definition unlinksNothing {A} (m : M A) : Prop :=
  forall w, unlinksOf (trace (snd (m w))) = unlinksOf (trace w).

(** The row "Step 5" of [processMeeting] writes over row [m]. *)
Definition successRow (meetingId : nat) (m : Meeting) (t : Transcription)
           (timestamp : nat) (summaryPath : string) : Meeting :=
  mkMeeting (title m) (date m) (Some (Qfloor (tr_duration t))) (audio_path m)
            (Some (txtPath meetingId timestamp)) (Some summaryPath).

(** The row the [catch] block of [processMeeting] writes over row [m]. *)
Definition failureRow (m : Meeting) (error : Error) : Meeting :=
  mkMeeting (title m) (date m) (Some 0%Z) (audio_path m)
            (Some ("ERROR: " ++ message error)%string) None.


(** Where a run of [processMeeting] on row [m] can stand. *)
Definition orchInv (sv : Services) (meetingId : nat) (PROCESSING_TIMEOUT : Z)
           (m : Meeting) (s : Orch) : Prop :=
  match outer s with
  | Pending =>
      match inner s with
      | Suspended Indexing =>
          exists t timestamp summaryPath,
            transcribed sv = Ok t /\ saveTranscript sv = Some timestamp
            /\ saveSummary sv = inr summaryPath
            /\ db s meetingId = Some (successRow meetingId m t timestamp summaryPath)
      | Suspended _ => db s meetingId = Some m
      | _ => False
      end
  | Resolved =>
      inner s = Completed
      /\ exists t timestamp summaryPath,
          transcribed sv = Ok t /\ saveTranscript sv = Some timestamp
          /\ saveSummary sv = inr summaryPath
          /\ db s meetingId = Some (successRow meetingId m t timestamp summaryPath)
  | RejectedWith e =>
      e = timeoutError meetingId PROCESSING_TIMEOUT
      \/ (inner s = Failed e /\ db s meetingId = Some (failureRow m e))
  end.

(** The services of meeting 7 when the chunks of the second plan are
    answered 413 as well. *)
Definition services_413_twice : Services :=
  mkServices (fst (transcribeWithRetry env_413_twice "uploads/a.webm" (Some 7%nat) false
                                       world0))
             (Some 1234%nat) None (inr "/storage/summaries/meeting-7-1234.json"%string)
             true.

(** ** searchIndex.js: tokens and search *)

(** The class [\w] of a regular expression without the [u] flag. *)
Definition isWordChar (c : N) : bool :=
  ((48 <=? c) && (c <=? 57) || (65 <=? c) && (c <=? 90) || (c =? 95)
   || (97 <=? c) && (c <=? 122))%N.

(** [s.replace(/[^\w\s]/g, ' ')] *)
Definition replacePunctuation (s : jsstring) : jsstring :=
  map (fun c => if isWordChar c || isWhiteSpace c then c else SPACE) s.

(** [s.split(/\s+/)]: the pieces between the maximal runs of white space,
    the empty piece before a leading and after a trailing run included.
    [cur] is the piece being read, [inRun] tells that the previous code
    unit was white space. *)
Fixpoint splitFrom (inRun : bool) (cur : jsstring) (s : jsstring) : list jsstring :=
  match s with
  | [] => [cur]
  | c :: rest =>
      if isWhiteSpace c then
        if inRun then splitFrom true cur rest else cur :: splitFrom true [] rest
      else splitFrom false (cur ++ [c]) rest
  end.

Definition splitSpaces (s : jsstring) : list jsstring := splitFrom false [] s.

Definition jsstring_eqb (a b : jsstring) : bool :=
  if list_eq_dec N.eq_dec a b then true else false.

Definition stopWords : list string :=
  [ "the"; "a"; "an"; "and"; "or"; "but"; "in"; "on"; "at"; "to"; "for";
    "of"; "with"; "is"; "was"; "are"; "were"; "been"; "be"; "have"; "has";
    "had"; "do"; "does"; "did"; "will"; "would"; "could"; "should"; "may";
    "might"; "can"; "this"; "that"; "these"; "those"; "i"; "you"; "he";
    "she"; "it"; "we"; "they"; "what"; "which"; "who"; "when"; "where";
    "why"; "how"; "all"; "each"; "every"; "both"; "few"; "more"; "most";
    "other"; "some"; "such"; "no"; "nor"; "not"; "only"; "own"; "same";
    "so"; "than"; "too"; "very"; "s"; "t"; "just"; "don"; "now" ]%string.

Definition isStopWord (word : jsstring) : bool :=
  existsb (fun w => jsstring_eqb (utf16 w) word) stopWords.

(** A row [searchDB.all(pattern)] returns: the columns of a meeting with
    the [rank] of an index entry of that meeting.  Of the columns of the
    meeting the search reads [id] and [project_id]; the others are carried
    along in [columns]. *)
Record Match : Type := mkMatch {
  match_id : nat;
  project_id : option nat;
  rank : Z;
  columns : Meeting
}.

(** A value of the [results] map: [{ ...match, matchedTokens }]. *)
Record Result : Type := mkResult {
  hit : Match;
  matchedTokens : list jsstring
}.

(** [Array.prototype.sort] with the comparator [(a, b) => b.rank - a.rank]:
    descending [rank]; the sort is stable, so entries of equal rank keep
    their order. *)
Fixpoint insertByRank (x : Result) (l : list Result) : list Result :=
  match l with
  | [] => [x]
  | y :: l' => if (rank (hit x) <? rank (hit y))%Z then y :: insertByRank x l' else x :: l
  end.

Definition sortByRank (l : list Result) : list Result := fold_right insertByRank [] l.

Section Search.

(** [String.prototype.toLowerCase] *)
Variable toLowerCase : jsstring -> jsstring.

(** [searchDB.all(pattern)]: the rows, unless the statement throws. *)
Variable searchDB : jsstring -> option (list Match).

Definition tokenize (text : jsstring) : list jsstring :=
  match text with
  | [] => []
  | _ =>
      filter (fun token => negb (isStopWord token))
             (filter (fun token => (2 <? List.length token)%nat)
                     (splitSpaces (replacePunctuation (toLowerCase text))))
  end.

(** [projectId && match.project_id !== projectId] *)
Definition otherProject (projectId : option nat) (m : Match) : bool :=
  match projectId with
  | Some (S n) =>
      match project_id m with
      | Some p => negb (p =? S n)%nat
      | None => true
      end
  | _ => false
  end.

(** [results.has(id)] *)
Definition has (id : nat) (results : list (nat * Result)) : bool :=
  existsb (fun kv => (fst kv =? id)%nat) results.

Definition searchFailed : Error := mkError "Failed to search meetings".

(** The loop over [matches].  [results.get(match)] looks up the row, not
    its id: it is [undefined], reading [rank] of it throws, and the [catch]
    of [searchMeetings] turns that into its own error. *)
Fixpoint matchLoop (projectId : option nat) (token : jsstring) (matches : list Match)
         (results : list (nat * Result)) : Outcome (list (nat * Result)) :=
  match matches with
  | [] => Ok results
  | m :: rest =>
      if otherProject projectId m then matchLoop projectId token rest results
      else if has (match_id m) results then Throw searchFailed
      else matchLoop projectId token rest
                     (results ++ [(match_id m, mkResult m [token])])
  end.

(** [`%${token}%`] *)
Definition likePattern (token : jsstring) : jsstring := utf16 "%" ++ token ++ utf16 "%".

(** The loop over [queryTokens]. *)
Fixpoint tokenLoop (projectId : option nat) (queryTokens : list jsstring)
         (results : list (nat * Result)) : Outcome (list (nat * Result)) :=
  match queryTokens with
  | [] => Ok results
  | token :: rest =>
      match searchDB (likePattern token) with
      | None => Throw searchFailed
      | Some matches =>
          match matchLoop projectId token matches results with
          | Ok results' => tokenLoop projectId rest results'
          | Throw e => Throw e
          end
      end
  end.

Definition searchMeetings (query : jsstring) (projectId : option nat)
  : Outcome (list Result) :=
  match trim query with
  | [] => Ok []
  | _ =>
      match tokenize query with
      | [] => Ok []
      | queryTokens =>
          match tokenLoop projectId queryTokens [] with
          | Ok results => Ok (sortByRank (map snd results))
          | Throw e => Throw e
          end
      end
  end.

(** The rows of [token] that pass the project filter. *)
Definition keptOf (projectId : option nat) (token : jsstring) : list Match :=
  match searchDB (likePattern token) with
  | Some matches => filter (fun m => negb (otherProject projectId m)) matches
  | None => []
  end.

(** The rows a query is answered with, token after token. *)
Definition hitsOf (projectId : option nat) (queryTokens : list jsstring) : list Match :=
  flat_map (keptOf projectId) queryTokens.

Definition entriesOf (projectId : option nat) (queryTokens : list jsstring)
  : list (nat * Result) :=
  flat_map (fun token => map (fun m => (match_id m, mkResult m [token]))
                             (keptOf projectId token))
           queryTokens.

End Search.

(** Lower case of the letters A to Z: [toLowerCase] on ASCII texts. *)
Definition asciiLower (s : jsstring) : jsstring :=
  map (fun c => if ((65 <=? c) && (c <=? 90))%N then (c + 32)%N else c) s.

Definition meeting1 : Meeting :=
  mkMeeting "Budget review" "2025-01-01" (Some 1800%Z) (Some "uploads/a.webm"%string)
            (Some "/storage/transcripts/meeting-1-1.txt"%string) None.

Definition meeting2 : Meeting :=
  mkMeeting "Planning" "2025-01-02" (Some 600%Z) (Some "uploads/b.webm"%string)
            (Some "/storage/transcripts/meeting-2-2.txt"%string) None.

(** An index in which meeting 1 contains both "budget" and "review", and
    meeting 2 "budget" only. *)
Definition index_budget (pattern : jsstring) : option (list Match) :=
  if jsstring_eqb pattern (utf16 "%budget%")
  then Some [mkMatch 2 None 10 meeting2; mkMatch 1 (Some 4%nat) 3 meeting1]
  else if jsstring_eqb pattern (utf16 "%review%")
       then Some [mkMatch 1 (Some 4%nat) 8 meeting1]
       else Some [].


(** * Properties *)

(** ** Numbers *)

Lemma Math_min_cases (a b : Q) :
  (a <= b /\ Js.Math_min a b = a) \/ (b < a /\ Js.Math_min a b = b).
Proof.
  unfold Js.Math_min. destruct (Qlt_le_dec b a); [right | left]; split; auto.
Qed.

Lemma Math_max_cases (a b : Q) :
  (a < b /\ Js.Math_max a b = b) \/ (b <= a /\ Js.Math_max a b = a).
Proof.
  unfold Js.Math_max. destruct (Qlt_le_dec a b); [left | right]; split; auto.
Qed.





(** ** The chunk planner *)

Section PlannerFacts.

Variables D C : Q.
Hypothesis C_pos : 0 < C.




End PlannerFacts.

Section PlanFacts.

Variables D C : Q.
Hypothesis C_pos : 0 < C.





(** Every window is a non-empty part of [[s, D]], and starts no earlier
    than the position the loop stood at. *)
Lemma Plan_bounds s i cs :
  Plan D C s i cs ->
  Forall (fun c => s <= startTime c /\ startTime c < endTime c /\ endTime c <= D) cs.
Proof.
  induction 1 as [| s i c cs Hs Hi Hst Hen Hdur Hrest IH]; constructor.
  - rewrite Hen, Hst.
    destruct (Math_min_cases (s + C) D) as [[? E] | [? E]]; rewrite E; lra.
  - eapply Forall_impl; [| exact IH]. simpl. intros a [? [? ?]]. lra.
Qed.

Lemma Plan_disjoint s i cs :
  Plan D C s i cs ->
  ForallOrdPairs (fun c c' => endTime c <= startTime c') cs.
Proof.
  induction 1 as [| s i c cs Hs Hi Hst Hen Hdur Hrest IH]; constructor.
  - apply Plan_bounds in Hrest.
    eapply Forall_impl; [| exact Hrest]. simpl. intros a [Ha _].
    rewrite Hen.
    destruct (Math_min_cases (s + C) D) as [[? E] | [? E]]; rewrite E; lra.
  - exact IH.
Qed.



End PlanFacts.

Section LoopFacts.

Variable extractRange : Q -> Q -> string + Z.
Variable baseFilename : string.
Variables D C : Q.
Hypothesis C_pos : 0 < C.
Hypothesis extract_ok : forall a b, exists size, extractRange a b = inr size.


End LoopFacts.



Lemma initialChunkDuration_pos fileSizeMB : 0 < initialChunkDuration fileSizeMB.
Proof.
  unfold initialChunkDuration. destruct (Qlt_le_dec fileSizeMB 50); reflexivity.
Qed.



(** The windows of a 1800 s recording cut every 600 s, and the ranges of
    the source the three files are extracted from. *)
Example plan_1800_600 :
  option_map
    (fun r => match r with
              | Ok cs => map (fun c => (index c, Qred (startTime c), Qred (endTime c),
                                        (Qred (fst (materialized c)),
                                         Qred (snd (materialized c))))) cs
              | Throw _ => []
              end)
    (splitIntoChunks (fun _ _ => inr 0%Z) "m" 1800 600 3)
  = Some [ (0%nat, 0, 600, (0, 600));
           (1%nat, 600, 1200, (598, 1200));
           (2%nat, 1200, 1800, (1198, 1800)) ].
Proof. vm_compute. reflexivity. Qed.

(** ** Deadline and initial chunk size *)




(** ** The merge *)

Lemma fold_mergeStep_text rs : forall acc,
  fullText (fold_left mergeStep rs acc)
  = fullText acc ++ List.concat (map (fun r => tr_text (transcription r) ++ [SPACE]) rs).
Proof.
  induction rs as [| r rs IH]; intros acc; simpl.
  - now rewrite app_nil_r.
  - rewrite IH. simpl. now rewrite <- !app_assoc.
Qed.

Lemma fold_mergeStep_segments rs : forall acc,
  allSegments (fold_left mergeStep rs acc) = allSegments acc ++ shiftedSegments rs.
Proof.
  induction rs as [| r rs IH]; intros acc; simpl.
  - now rewrite app_nil_r.
  - rewrite IH. simpl.
    destruct (tr_segments (transcription r)); simpl.
    + reflexivity.
    + now rewrite <- app_assoc.
Qed.

Lemma fold_mergeStep_duration rs : forall acc,
  totalDuration (fold_left mergeStep rs acc)
  = fold_left Js.Math_max (map (fun x => endTime (chunk x)) rs) (totalDuration acc).
Proof.
  induction rs as [| r rs IH]; intros acc; simpl; [reflexivity |].
  now rewrite IH.
Qed.





(** *** Trimming *)




Lemma concat_trailing_space (texts : list jsstring) :
  texts <> [] ->
  List.concat (map (fun t => t ++ [SPACE]) texts) = joinSpace texts ++ [SPACE].
Proof.
  induction texts as [| t texts IH]; [congruence |]. intros _.
  destruct texts as [| t' texts].
  - simpl. now rewrite app_nil_r.
  - change (List.concat (map (fun t => t ++ [SPACE]) (t :: t' :: texts)))
      with ((t ++ [SPACE]) ++ List.concat (map (fun t => t ++ [SPACE]) (t' :: texts))).
    rewrite IH by congruence.
    change (joinSpace (t :: t' :: texts)) with (t ++ SPACE :: joinSpace (t' :: texts)).
    now rewrite <- !app_assoc.
Qed.






(** ** Order of the merged segments *)

(** Whatever a run of the loop returns extends the list it started from by
    a plan. *)
Lemma splitLoop_sound extractRange base D C :
  forall fuel chunks s result,
    splitLoop extractRange base D C fuel chunks s = Some (Ok result) ->
    exists out, result = chunks ++ out /\ Plan D C s (List.length chunks) out.
Proof.
  induction fuel as [| fuel IH]; intros chunks s result Hrun; simpl in Hrun.
  - destruct (Qlt_le_dec s D); [discriminate |].
    inversion Hrun; subst. exists []. split; [now rewrite app_nil_r | now constructor].
  - destruct (Qlt_le_dec s D) as [Hlt | Hge].
    + destruct (extractRange _ _) as [msg | size]; [discriminate |].
      apply IH in Hrun. destruct Hrun as [out [Hres Hplan]].
      match type of Hres with
      | _ = (chunks ++ [?c]) ++ _ => exists (c :: out)
      end.
      split; [now rewrite Hres, <- app_assoc |].
      rewrite length_app in Hplan. simpl in Hplan.
      replace (List.length chunks + 1)%nat with (S (List.length chunks)) in Hplan by lia.
      constructor; auto.
    + inversion Hrun; subst. exists []. split; [now rewrite app_nil_r | now constructor].
Qed.

Lemma sortedUpTo_app {A} slack (key : A -> Q) (l1 l2 : list A) :
  sortedUpTo slack key l1 -> sortedUpTo slack key l2 ->
  (forall a b, In a l1 -> In b l2 -> key a <= key b + slack) ->
  sortedUpTo slack key (l1 ++ l2).
Proof.
  induction l1 as [| a l1 IH]; intros H1 H2 Hcross; [exact H2 |].
  destruct l1 as [| a' l1].
  - destruct l2 as [| b l2]; [exact I |].
    split; [apply Hcross; now left | exact H2].
  - destruct H1 as [Haa H1]. split; [exact Haa |].
    apply IH; [exact H1 | exact H2 |].
    intros x y Hx Hy. apply Hcross; [now right | exact Hy].
Qed.

Lemma sortedBy_weaken {A} slack (key : A -> Q) (l : list A) :
  0 <= slack -> sortedBy key l -> sortedUpTo slack key l.
Proof.
  intros Hs. induction l as [| a l IH]; [trivial |].
  destruct l as [| b l]; [trivial |].
  intros [Hab H]. split; [lra | now apply IH].
Qed.

Lemma sortedUpTo_0 {A} (key : A -> Q) (l : list A) :
  sortedUpTo 0 key l -> sortedBy key l.
Proof.
  induction l as [| a l IH]; [trivial |].
  destruct l as [| b l]; [trivial |].
  intros [Hab H]. split; [lra | now apply IH].
Qed.

Lemma sortedBy_shift (c : Chunk) (segs : list Segment) :
  sortedBy seg_start segs -> sortedBy seg_start (map (adjustSegment c) segs).
Proof.
  induction segs as [| a l IH]; [trivial |].
  destruct l as [| b l]; [trivial |].
  intros [Hab H]. split; [simpl; lra | now apply IH].
Qed.

Lemma In_shiftedSegments b rs :
  In b (shiftedSegments rs) ->
  exists r s, In r rs /\ In s (tr_segments (transcription r))
              /\ b = adjustSegment (chunk r) s.
Proof.
  unfold shiftedSegments. rewrite in_flat_map. intros [r [Hr Hb]].
  rewrite in_map_iff in Hb. destruct Hb as [s [Hs Hin]].
  exists r, s. auto.
Qed.

(** Blocks that follow one another on the time line, each in order and
    each overrunning its window by at most [slack], concatenate to a
    sequence in order up to [slack]. *)
Lemma shiftedSegments_sorted slack rs :
  0 <= slack ->
  ForallOrdPairs (fun c c' => endTime c <= startTime c') (map chunk rs) ->
  Forall (fun r =>
            sortedBy seg_start (tr_segments (transcription r))
            /\ Forall (fun s => 0 <= seg_start s
                                /\ seg_start s + startTime (chunk r)
                                   <= endTime (chunk r) + slack)
                      (tr_segments (transcription r))) rs ->
  sortedUpTo slack seg_start (shiftedSegments rs).
Proof.
  intros Hslack. induction rs as [| r rs IH]; intros Hord Hall; [exact I |].
  inversion Hord as [| ? ? Hhead Htail]; subst.
  inversion Hall as [| ? ? [Hsorted Hbound] Hrest]; subst.
  change (shiftedSegments (r :: rs))
    with (map (adjustSegment (chunk r)) (tr_segments (transcription r))
          ++ shiftedSegments rs).
  apply sortedUpTo_app.
  - apply sortedBy_weaken; [exact Hslack | now apply sortedBy_shift].
  - now apply IH.
  - intros a b Ha Hb.
    rewrite in_map_iff in Ha. destruct Ha as [s [<- Hs]].
    apply In_shiftedSegments in Hb. destruct Hb as [r' [s' [Hr' [Hs' ->]]]].
    rewrite Forall_forall in Hbound, Hhead, Hrest.
    destruct (Hbound s Hs) as [_ Hup].
    assert (Hgap : endTime (chunk r) <= startTime (chunk r')).
    { apply Hhead. now apply in_map. }
    destruct (Hrest r' Hr') as [_ Hb']. rewrite Forall_forall in Hb'.
    destruct (Hb' s' Hs') as [Hlo _].
    simpl. lra.
Qed.

Lemma Plan_duration D C s i cs :
  Plan D C s i cs -> Forall (fun c => duration c = endTime c - startTime c) cs.
Proof. induction 1; constructor; assumption. Qed.

Lemma fileSeconds_le c : fileSeconds c <= duration c + CHUNK_OVERLAP_SECONDS.
Proof.
  unfold fileSeconds, seekDurationOf, CHUNK_OVERLAP_SECONDS.
  destruct (0 <? index c)%nat; lra.
Qed.

(** C7, as the code has it.  For results over a plan of [splitIntoChunks]
    whose segments are in order within each chunk and start within the audio
    of the chunk's file, the merged segments are in order of [start] except
    that at a chunk boundary [start] may step back by up to the overlap of
    2 s; they are non-decreasing throughout when every segment starts
    within the window of its chunk. *)
Theorem C7_segments_ordered_up_to_overlap
        (extractRange : Q -> Q -> string + Z) (base : string) (D C : Q)
        (fuel : nat) (rs : list ChunkResult) :
  0 < C ->
  splitIntoChunks extractRange base D C fuel = Some (Ok (map chunk rs)) ->
  Forall wellTimed rs ->
  sortedUpTo CHUNK_OVERLAP_SECONDS seg_start (tr_segments (mergeTranscripts rs))
  /\ (Forall withinWindow rs ->
      sortedBy seg_start (tr_segments (mergeTranscripts rs))).
Proof.
  intros HC Hrun Hwell.
  apply splitLoop_sound in Hrun. destruct Hrun as [out [Hout Hplan]].
  simpl in Hout, Hplan. subst out.
  pose proof (Plan_disjoint D C HC _ _ _ Hplan) as Hord.
  pose proof (Plan_duration D C _ _ _ Hplan) as Hdur.
  rewrite Forall_forall in Hdur.
  assert (Hseg : tr_segments (mergeTranscripts rs) = shiftedSegments rs).
  { unfold mergeTranscripts. simpl tr_segments. now rewrite fold_mergeStep_segments. }
  rewrite Hseg. split.
  - apply shiftedSegments_sorted; [discriminate | exact Hord |].
    rewrite Forall_forall in Hwell |- *. intros r Hr.
    destruct (Hwell r Hr) as [Hs Hb]. split; [exact Hs |].
    eapply Forall_impl; [| exact Hb]. simpl. intros s [Hlo Hhi].
    split; [exact Hlo |].
    pose proof (fileSeconds_le (chunk r)) as Hf.
    rewrite (Hdur (chunk r) (in_map chunk rs r Hr)) in Hf. lra.
  - intros Hwin. apply sortedUpTo_0.
    apply shiftedSegments_sorted; [lra | exact Hord |].
    rewrite Forall_forall in Hwell, Hwin |- *. intros r Hr.
    destruct (Hwell r Hr) as [Hs Hb]. split; [exact Hs |].
    specialize (Hwin r Hr). unfold withinWindow in Hwin.
    rewrite Forall_forall in Hb, Hwin |- *. intros s Hin.
    destruct (Hb s Hin) as [Hlo _]. split; [exact Hlo |].
    specialize (Hwin s Hin).
    rewrite (Hdur (chunk r) (in_map chunk rs r Hr)) in Hwin. lra.
Qed.

Lemma plan3_is_planned :
  splitIntoChunks (fun _ _ => inr 0%Z) "m" 1800 600 3 = Some (Ok plan3).
Proof. vm_compute. reflexivity. Qed.

Lemma C7_segments_ordered_up_to_overlap_witness :
  sortedUpTo CHUNK_OVERLAP_SECONDS seg_start (tr_segments (mergeTranscripts results3))
  /\ (Forall withinWindow results3 ->
      sortedBy seg_start (tr_segments (mergeTranscripts results3))).
Proof.
  apply (C7_segments_ordered_up_to_overlap (fun _ _ => inr 0%Z) "m" 1800 600 3 results3).
  - reflexivity.
  - vm_compute. reflexivity.
  - unfold results3, plan3, wellTimed. simpl.
    repeat constructor; vm_compute; discriminate.
Defined.

(** C7, as worded, fails on the plan of a 1800 s recording: chunk 1 is
    materialized from [[598, 1200)], so a segment may start 601 s into
    its file and lands at 1201 s, after which the first segment of chunk 2
    lands at 1200 s. *)
Lemma C7_overlap_counterexample :
  splitIntoChunks (fun _ _ => inr 0%Z) "m" 1800 600 3 = Some (Ok (map chunk results3_late))
  /\ Forall wellTimed results3_late
  /\ map (fun s => Qred (seg_start s)) (tr_segments (mergeTranscripts results3_late))
     = [1; 1201; 1200]
  /\ ~ sortedBy seg_start (tr_segments (mergeTranscripts results3_late)).
Proof.
  split; [vm_compute; reflexivity |].
  split.
  { unfold results3_late, plan3, wellTimed. simpl.
    repeat constructor; vm_compute; discriminate. }
  split; [vm_compute; reflexivity |].
  intros H. vm_compute in H. destruct H as [_ [H _]]. apply H. reflexivity.
Qed.

(** ** Words: what trimming and collapsing keep of a text *)


Lemma words_ws c s : isWhiteSpace c = true -> words (c :: s) = words s.
Proof. intros H. simpl. now rewrite H. Qed.

Lemma words_nonws c s :
  isWhiteSpace c = false ->
  words (c :: s)
  = match s with
    | [] => [[c]]
    | c' :: _ =>
        if isWhiteSpace c' then [c] :: words s
        else match words s with
             | w :: ws => (c :: w) :: ws
             | [] => [[c]]
             end
    end.
Proof. intros H. simpl. now rewrite H. Qed.

Lemma words_nonws_nonempty c s : isWhiteSpace c = false -> words (c :: s) <> [].
Proof.
  intros H. rewrite (words_nonws c s H).
  destruct s as [| c' s']; [discriminate |].
  destruct (isWhiteSpace c'); [discriminate |].
  destruct (words (c' :: s')); discriminate.
Qed.

(** A white-space code unit separates the words on its two sides. *)
Lemma words_app_ws a c b :
  isWhiteSpace c = true -> words (a ++ c :: b) = words a ++ words b.
Proof.
  intros Hc. induction a as [| x a IH].
  - simpl. now rewrite Hc.
  - destruct (isWhiteSpace x) eqn:Hx.
    + change ((x :: a) ++ c :: b) with (x :: (a ++ c :: b)).
      now rewrite !words_ws.
    + change ((x :: a) ++ c :: b) with (x :: (a ++ c :: b)).
      rewrite !words_nonws by assumption.
      destruct a as [| y a'].
      * cbn [app]. rewrite Hc. now rewrite words_ws.
      * change ((y :: a') ++ c :: b) with (y :: (a' ++ c :: b)) in *.
        cbv iota.
        destruct (isWhiteSpace y) eqn:Hy.
        -- now rewrite IH.
        -- rewrite IH.
           pose proof (words_nonws_nonempty y a' Hy) as Hne.
           destruct (words (y :: a')); [congruence | reflexivity].
Qed.

Lemma words_of_word w : isWord w -> words w = [w].
Proof.
  intros [Hne Hall]. induction w as [| c w IH]; [congruence |].
  inversion Hall as [| ? ? Hc Hw]; subst.
  rewrite words_nonws by assumption.
  destruct w as [| c' w']; [reflexivity |].
  inversion Hw as [| ? ? Hc' _]; subst. rewrite Hc'.
  rewrite IH; [reflexivity | discriminate | exact Hw].
Qed.

Lemma words_are_words s : Forall isWord (words s).
Proof.
  induction s as [| c s IH]; [constructor |].
  destruct (isWhiteSpace c) eqn:Hc.
  - now rewrite words_ws.
  - rewrite words_nonws by assumption.
    assert (H1 : isWord [c]).
    { split; [discriminate | now repeat constructor]. }
    destruct s as [| c' s']; [now repeat constructor |].
    destruct (isWhiteSpace c'); [now constructor |].
    destruct (words (c' :: s')) as [| w ws]; [now repeat constructor |].
    inversion IH as [| ? ? [Hne Hw] Hrest]; subst.
    constructor; [| exact Hrest].
    split; [discriminate | now constructor].
Qed.

Lemma words_unwords ws : Forall isWord ws -> words (unwords ws) = ws.
Proof.
  induction ws as [| w ws IH]; intros Hall; [reflexivity |].
  inversion Hall as [| ? ? Hw Hrest]; subst.
  destruct ws as [| w' ws].
  - simpl. now apply words_of_word.
  - change (unwords (w :: w' :: ws)) with (w ++ SPACE :: unwords (w' :: ws)).
    rewrite words_app_ws by reflexivity.
    rewrite (words_of_word w Hw), IH by assumption. reflexivity.
Qed.

Lemma words_trimStart s : words (trimStart s) = words s.
Proof.
  induction s as [| c s IH]; [reflexivity |].
  simpl trimStart. destruct (isWhiteSpace c) eqn:Hc; [| reflexivity].
  now rewrite words_ws.
Qed.

Lemma trimEnd_nil_words s : trimEnd s = [] <-> words s = [].
Proof.
  induction s as [| c s IH]; [tauto |].
  simpl trimEnd. destruct (isWhiteSpace c) eqn:Hc.
  - rewrite words_ws by assumption.
    destruct (trimEnd s); [tauto |].
    split; [discriminate |]. intros H. apply IH in H. discriminate.
  - pose proof (words_nonws_nonempty c s Hc).
    destruct (trimEnd s); split; congruence.
Qed.

Lemma trimEnd_nonws c s :
  isWhiteSpace c = false -> trimEnd (c :: s) = c :: trimEnd s.
Proof.
  intros Hc. simpl. rewrite Hc. now destruct (trimEnd s).
Qed.

Lemma collapseFrom_ws inRun c r :
  isWhiteSpace c = true ->
  collapseFrom inRun (c :: r) = (if inRun then [] else [SPACE]) ++ collapseFrom true r.
Proof. intros H. simpl. rewrite H. now destruct inRun. Qed.

Lemma collapseFrom_nonws inRun c r :
  isWhiteSpace c = false -> collapseFrom inRun (c :: r) = c :: collapseFrom false r.
Proof. intros H. simpl. now rewrite H. Qed.

Lemma trimEnd_ws c s :
  isWhiteSpace c = true ->
  trimEnd (c :: s) = match words s with [] => [] | _ => c :: trimEnd s end.
Proof.
  intros Hc. simpl. rewrite Hc.
  destruct (trimEnd s) as [| x r] eqn:E.
  - apply trimEnd_nil_words in E. now rewrite E.
  - destruct (words s) eqn:W; [| reflexivity].
    apply trimEnd_nil_words in W. congruence.
Qed.

Lemma lead_true s : lead true s = [].
Proof. destruct s; [reflexivity |]. simpl. now rewrite andb_false_r. Qed.

Lemma collapse_trimEnd s : forall inRun,
  collapseFrom inRun (trimEnd s)
  = match words s with
    | [] => []
    | ws => lead inRun s ++ unwords ws
    end.
Proof.
  induction s as [| c s IH]; intros inRun; [reflexivity |].
  destruct (isWhiteSpace c) eqn:Hc.
  - rewrite words_ws, trimEnd_ws by assumption.
    destruct (words s) as [| w ws] eqn:W; [reflexivity |].
    rewrite collapseFrom_ws by assumption.
    rewrite (IH true), lead_true. simpl lead. rewrite Hc.
    now destruct inRun.
  - rewrite trimEnd_nonws, collapseFrom_nonws by assumption.
    rewrite (IH false), words_nonws by assumption.
    simpl lead. rewrite Hc. simpl app.
    destruct s as [| c' s']; [reflexivity |].
    simpl lead. destruct (isWhiteSpace c') eqn:Hc'.
    + simpl andb. destruct (words (c' :: s')) as [| w ws]; reflexivity.
    + pose proof (words_nonws_nonempty c' s' Hc') as Hne.
      destruct (words (c' :: s')) as [| w ws]; [congruence |].
      simpl app. now destruct ws.
Qed.

(** Trimming and collapsing a text leaves its words joined by single
    spaces. *)
Lemma normalize_words s : collapseSpaces (trim s) = unwords (words s).
Proof.
  unfold collapseSpaces, trim. rewrite collapse_trimEnd, words_trimStart.
  destruct (words s) as [| w ws] eqn:E; [reflexivity |].
  assert (Hl : lead false (trimStart s) = []).
  { clear. induction s as [| c s IH]; [reflexivity |].
    simpl trimStart. destruct (isWhiteSpace c) eqn:Hc; [exact IH |].
    simpl. now rewrite Hc. }
  now rewrite Hl.
Qed.

Lemma words_normalize s : words (collapseSpaces (trim s)) = words s.
Proof.
  rewrite normalize_words. apply words_unwords, words_are_words.
Qed.

(** ** Merging in two steps *)

Lemma Qplus_0_r_eq (x : Q) : x + 0 = x.
Proof.
  destruct x as [n d]. unfold Qplus. simpl.
  now rewrite Z.mul_1_r, Z.add_0_r, Pos.mul_1_r.
Qed.

Lemma adjustSegment_zero c s : startTime c = 0 -> adjustSegment c s = s.
Proof.
  intros H. unfold adjustSegment. rewrite H, !Qplus_0_r_eq. now destruct s.
Qed.

Lemma orEn_idem l : orEn (Some (orEn l)) = orEn l.
Proof.
  destruct l as [s |]; simpl; [| reflexivity].
  destruct (String.eqb s "") eqn:E; [reflexivity |]. now rewrite E.
Qed.

Lemma fold_max_stays_or_grows l : forall a,
  fold_left Js.Math_max l a = a \/ a < fold_left Js.Math_max l a.
Proof.
  induction l as [| x l IH]; intros a; simpl; [now left |].
  destruct (Math_max_cases a x) as [[Hlt E] | [Hle E]]; rewrite E.
  - right. destruct (IH x) as [H | H]; [rewrite H; exact Hlt | lra].
  - apply IH.
Qed.

Lemma Math_max_0_fold l :
  Js.Math_max 0 (fold_left Js.Math_max l 0) = fold_left Js.Math_max l 0.
Proof.
  destruct (fold_max_stays_or_grows l 0) as [H | H].
  - rewrite H. reflexivity.
  - destruct (Math_max_cases 0 (fold_left Js.Math_max l 0)) as [[_ E] | [Hle E]];
      rewrite E; [reflexivity | lra].
Qed.

Lemma shiftedSegments_app xs ys :
  shiftedSegments (xs ++ ys) = shiftedSegments xs ++ shiftedSegments ys.
Proof. unfold shiftedSegments. apply flat_map_app. Qed.

Lemma mergeTranscripts_segments rs : tr_segments (mergeTranscripts rs) = shiftedSegments rs.
Proof.
  unfold mergeTranscripts. simpl tr_segments. now rewrite fold_mergeStep_segments.
Qed.

(** The words of the text the loop of [mergeTranscripts] accumulates. *)
Lemma words_fullText (xs : list ChunkResult) (rest : jsstring) :
  xs <> [] ->
  words (List.concat (map (fun r => tr_text (transcription r) ++ [SPACE]) xs) ++ rest)
  = words (joinSpace (textsOf xs)) ++ words rest.
Proof.
  intros Hne.
  replace (map (fun r => tr_text (transcription r) ++ [SPACE]) xs)
    with (map (fun t => t ++ [SPACE]) (textsOf xs))
    by (unfold textsOf; now rewrite map_map).
  rewrite concat_trailing_space
    by (unfold textsOf; destruct xs; [congruence | discriminate]).
  rewrite <- app_assoc. simpl app. now apply words_app_ws.
Qed.

(** C9. Merging a non-empty run of results, handing the merged transcript
    back as the result for the stretch [[0, duration)] in front of the
    remaining results and merging again gives the very transcript that
    merging all results at once gives: same text, language, duration and
    segments. *)
Theorem C9_mergeTranscripts_two_steps (xs ys : list ChunkResult) :
  xs <> [] ->
  mergeTranscripts (asChunkResult (mergeTranscripts xs) :: ys)
  = mergeTranscripts (xs ++ ys).
Proof.
  intros Hne.
  set (m := mergeTranscripts xs).
  assert (Htext : tr_text (mergeTranscripts (asChunkResult m :: ys))
                  = tr_text (mergeTranscripts (xs ++ ys))).
  { unfold mergeTranscripts. simpl tr_text.
    rewrite !fold_mergeStep_text. simpl fullText. rewrite !app_nil_l.
    rewrite !normalize_words. f_equal.
    rewrite map_app, concat_app, words_fullText by assumption.
    simpl map. simpl List.concat. simpl tr_text.
    rewrite <- app_assoc. simpl app.
    rewrite words_app_ws by reflexivity.
    f_equal. rewrite words_unwords by apply words_are_words.
    rewrite fold_mergeStep_text. simpl fullText. rewrite app_nil_l.
    rewrite <- (app_nil_r (List.concat _)).
    rewrite words_fullText by assumption. apply app_nil_r. }
  assert (Hlang : tr_language (mergeTranscripts (asChunkResult m :: ys))
                  = tr_language (mergeTranscripts (xs ++ ys))).
  { destruct xs as [| x xs']; [congruence |].
    unfold m, mergeTranscripts. cbn [tr_language asChunkResult transcription app].
    now rewrite orEn_idem. }
  assert (Hdur : tr_duration (mergeTranscripts (asChunkResult m :: ys))
                 = tr_duration (mergeTranscripts (xs ++ ys))).
  { unfold mergeTranscripts. simpl tr_duration.
    rewrite !fold_mergeStep_duration. simpl totalDuration.
    rewrite map_app, fold_left_app. simpl map. simpl fold_left.
    unfold m, mergeTranscripts. simpl tr_duration.
    rewrite fold_mergeStep_duration. simpl totalDuration.
    now rewrite Math_max_0_fold. }
  assert (Hseg : tr_segments (mergeTranscripts (asChunkResult m :: ys))
                 = tr_segments (mergeTranscripts (xs ++ ys))).
  { rewrite !mergeTranscripts_segments, shiftedSegments_app.
    change (shiftedSegments (asChunkResult m :: ys))
      with (map (adjustSegment (chunk (asChunkResult m))) (tr_segments m)
            ++ shiftedSegments ys).
    f_equal. unfold m. rewrite mergeTranscripts_segments.
    rewrite <- (map_id (shiftedSegments xs)) at 2.
    apply map_ext. intros s. now apply adjustSegment_zero. }
  destruct (mergeTranscripts (asChunkResult m :: ys)),
           (mergeTranscripts (xs ++ ys)).
  simpl in *. congruence.
Qed.

Lemma C9_mergeTranscripts_two_steps_witness :
  mergeTranscripts (asChunkResult (mergeTranscripts (firstn 2 results3_late))
                    :: skipn 2 results3_late)
  = mergeTranscripts (firstn 2 results3_late ++ skipn 2 results3_late).
Proof.
  apply (C9_mergeTranscripts_two_steps (firstn 2 results3_late) (skipn 2 results3_late)).
  discriminate.
Defined.

(** ** The speech-to-text client *)

Section ClientFacts.

Variable env : Env.
Hypothesis configured : apiKeyConfigured env = true.

Lemma transcribeSingleFile_rejected audioPath w error :
  stt env (requests w) = Rejected error ->
  transcribeSingleFile env audioPath w
  = (Throw (mkError (classify error)), afterAttempt audioPath w).
Proof.
  intros H. unfold transcribeSingleFile. now rewrite configured, H.
Qed.

Lemma transcribeSingleFile_recognized audioPath w r :
  stt env (requests w) = Recognized r ->
  exists t, transcribeSingleFile env audioPath w = (Ok t, afterAttempt audioPath w)
            /\ tr_text t = w_text r.
Proof.
  intros H. unfold transcribeSingleFile. rewrite configured, H.
  eexists. split; reflexivity.
Qed.

End ClientFacts.



(** After the 413 on the direct call the 10 MiB upload is converted, cut
    and transcribed chunk by chunk, and [transcribeWithRetry] resolves. *)
Example direct_413_then_chunks :
  exists t w,
    transcribeWithRetry env_10MiB_413 "uploads/a.webm" (Some 7%nat) false world0
    = (Ok t, w)
    /\ splitsOf (trace w) = [600]
    /\ attemptsOf (trace w)
       = [ "uploads/a.webm";
           "storage/chunks/meeting-7-converted_chunk0.wav";
           "storage/chunks/meeting-7-converted_chunk1.wav" ]%string.
Proof.
  eexists. eexists. split; [vm_compute; reflexivity |].
  split; reflexivity.
Qed.

(** ** The chunk transcription driver *)

Lemma bind_ok {A B} (m : M A) (k : A -> M B) w a w' :
  m w = (Ok a, w') -> bind m k w = k a w'.
Proof. intros H. unfold bind. now rewrite H. Qed.

Lemma bind_throw {A B} (m : M A) (k : A -> M B) w e w' :
  m w = (Throw e, w') -> bind m k w = (Throw e, w').
Proof. intros H. unfold bind. now rewrite H. Qed.

Lemma sleepsOf_app a b : sleepsOf (a ++ b) = sleepsOf a ++ sleepsOf b.
Proof.
  induction a as [| e a IH]; [reflexivity |].
  destruct e; simpl; now rewrite IH.
Qed.

Lemma splitsOf_app a b : splitsOf (a ++ b) = splitsOf a ++ splitsOf b.
Proof.
  induction a as [| e a IH]; [reflexivity |].
  destruct e; simpl; now rewrite IH.
Qed.

Lemma retryEvents_S c attempt count :
  retryEvents c attempt (S count)
  = EvSleep (retryDelay attempt) :: EvTranscribe (path c)
    :: retryEvents c (S attempt) count.
Proof. reflexivity. Qed.

Lemma transcribeSingleFile_sleeps env p w :
  sleepsOf (trace (snd (transcribeSingleFile env p w))) = sleepsOf (trace w).
Proof.
  unfold transcribeSingleFile.
  destruct (apiKeyConfigured env); [| reflexivity]. simpl negb. cbv iota.
  destruct (stt env (requests w)); simpl; rewrite sleepsOf_app; simpl;
    apply app_nil_r.
Qed.

(** However the calls turn out, the retry loop of a chunk sleeps before
    each of its attempts, for [retryDelay attempt], [retryDelay (attempt + 1)],
    ... and makes no more than [remaining] attempts. *)
Lemma retryLoop_sleeps env c : forall remaining attempt w,
  exists k, (k <= remaining)%nat
            /\ sleepsOf (trace (snd (retryLoop env c remaining attempt w)))
               = sleepsOf (trace w) ++ map retryDelay (seq attempt k).
Proof.
  induction remaining as [| remaining IH]; intros attempt w.
  - exists 0%nat. split; [lia |]. simpl. now rewrite app_nil_r.
  - simpl retryLoop. unfold bind, sleep, emit, try_.
    set (w1 := mkWorld (requests w) (trace w ++ [EvSleep (retryDelay attempt)])).
    pose proof (transcribeSingleFile_sleeps env (path c) w1) as Hs.
    destruct (transcribeSingleFile env (path c) w1) as [[t | e] w2].
    + exists 1%nat. split; [lia |]. simpl in *. rewrite Hs.
      unfold w1. simpl. now rewrite sleepsOf_app.
    + simpl in Hs.
      destruct (String.eqb (message e) PAYLOAD_TOO_LARGE).
      * exists 1%nat. split; [lia |]. simpl. rewrite Hs.
        unfold w1. simpl. now rewrite sleepsOf_app.
      * destruct (IH (S attempt) w2) as [k [Hk Hsl]].
        exists (S k). split; [lia |]. rewrite Hsl, Hs.
        unfold w1. simpl. rewrite sleepsOf_app. simpl.
        now rewrite <- app_assoc.
Qed.

Section DriverFacts.

Variable env : Env.
Hypothesis configured : apiKeyConfigured env = true.

Lemma transcribeSingleFile_after p w :
  snd (transcribeSingleFile env p w) = afterAttempt p w.
Proof.
  unfold transcribeSingleFile. rewrite configured. simpl.
  now destruct (stt env (requests w)).
Qed.

(** However the calls turn out, the retry loop of a chunk makes [k] attempts
    for some [k] up to [remaining], the attempt numbered [a] after a sleep of
    [retryDelay a], and does nothing else. *)
Lemma retryLoop_trace c : forall remaining attempt w,
  exists k, (k <= remaining)%nat
            /\ trace (snd (retryLoop env c remaining attempt w))
               = trace w ++ retryEvents c attempt k.
Proof.
  induction remaining as [| remaining IH]; intros attempt w.
  - exists 0%nat. split; [lia |]. simpl. now rewrite app_nil_r.
  - simpl retryLoop. unfold bind, sleep, emit, try_.
    set (w1 := mkWorld (requests w) (trace w ++ [EvSleep (retryDelay attempt)])).
    pose proof (transcribeSingleFile_after (path c) w1) as Hw.
    destruct (transcribeSingleFile env (path c) w1) as [[t | e] w2];
      simpl in Hw; subst w2.
    + exists 1%nat. split; [lia |]. unfold ret, afterAttempt, w1. simpl.
      now rewrite <- app_assoc.
    + destruct (String.eqb (message e) PAYLOAD_TOO_LARGE).
      * exists 1%nat. split; [lia |]. unfold ret, afterAttempt, w1. simpl.
        now rewrite <- app_assoc.
      * destruct (IH (S attempt) (afterAttempt (path c) w1)) as [k [Hk Htr]].
        exists (S k). split; [lia |]. rewrite Htr, retryEvents_S.
        unfold afterAttempt, w1. simpl. now rewrite <- !app_assoc.
Qed.

(** When every call is rejected otherwise than as too large, the retry
    loop uses up its attempts. *)
Lemma retryLoop_all_fail c : forall remaining attempt w,
  (forall k, (k < remaining)%nat -> failsOtherwise env (requests w + k)) ->
  retryLoop env c remaining attempt w
  = (Ok GaveUp,
     mkWorld (requests w + remaining) (trace w ++ retryEvents c attempt remaining)).
Proof.
  induction remaining as [| remaining IH]; intros attempt w Hfail.
  - simpl. unfold ret, retryEvents. simpl.
    rewrite Nat.add_0_r, app_nil_r. now destruct w.
  - destruct (Hfail 0%nat) as [error [Hstt Hcls]]; [lia |].
    rewrite Nat.add_0_r in Hstt.
    simpl retryLoop. unfold bind, sleep, emit, try_.
    rewrite (transcribeSingleFile_rejected env configured (path c) _ error)
      by exact Hstt.
    cbn [message]. apply String.eqb_neq in Hcls. rewrite Hcls.
    rewrite IH.
    + unfold afterAttempt. cbn [requests trace].
      rewrite retryEvents_S. f_equal. f_equal; [lia |].
      rewrite <- !app_assoc. reflexivity.
    + intros k Hk. unfold afterAttempt. cbn [requests].
      replace (S (requests w) + k)%nat with (requests w + S k)%nat by lia.
      apply Hfail. lia.
Qed.

End DriverFacts.

Lemma report_run progressCallback p w :
  report progressCallback p w
  = (Ok tt, mkWorld (requests w) (trace w ++ progressEvents progressCallback p)).
Proof.
  unfold report, progressEvents. destruct progressCallback; [reflexivity |].
  unfold ret. rewrite app_nil_r. now destruct w.
Qed.

Lemma chunkLoop_cons env progressCallback total c rest i results :
  chunkLoop env progressCallback total (c :: rest) i results
  = (report progressCallback (ChunkProgress (i + 1) total (index c)) ;;;
     r <- try_ (transcribeSingleFile env (path c)) ;;
     match r with
     | Ok t =>
         chunkLoop env progressCallback total rest (S i)
                   (results ++ [mkChunkResult c t])
     | Throw error =>
         if String.eqb (message error) PAYLOAD_TOO_LARGE then
           ret (results, true)
         else
           o <- retryLoop env c MAX_RETRIES 1 ;;
           match o with
           | GaveUp => throw (exhaustedMessage c)
           | TooLarge => ret (results, true)
           | Retried t =>
               chunkLoop env progressCallback total rest (S i)
                         (results ++ [mkChunkResult c t])
           end
     end)%js.
Proof. reflexivity. Qed.

(** The loop over [pre ++ rest] is the loop over [pre] and, if that comes
    to its end without asking for smaller chunks, the loop over [rest]. *)
Lemma chunkLoop_app env progressCallback total pre : forall rest i results w,
  chunkLoop env progressCallback total (pre ++ rest) i results w
  = match chunkLoop env progressCallback total pre i results w with
    | (Ok (results', false), w') =>
        chunkLoop env progressCallback total rest (i + List.length pre) results' w'
    | other => other
    end.
Proof.
  induction pre as [| c pre IH]; intros rest i results w.
  - simpl. unfold ret. now rewrite Nat.add_0_r.
  - simpl app. rewrite !chunkLoop_cons. unfold bind.
    rewrite report_run.
    destruct (try_ (transcribeSingleFile env (path c)) _) as [[r | e] w2];
      [| reflexivity].
    destruct r as [t | error].
    + rewrite IH. simpl List.length.
      now replace (S i + List.length pre)%nat with (i + S (List.length pre))%nat by lia.
    + destruct (String.eqb (message error) PAYLOAD_TOO_LARGE); [reflexivity |].
      destruct (retryLoop env c MAX_RETRIES 1 w2) as [[o | e] w3]; [| reflexivity].
      destruct o as [t | |]; try reflexivity.
      rewrite IH. simpl List.length.
      now replace (S i + List.length pre)%nat with (i + S (List.length pre))%nat by lia.
Qed.

Lemma exhaustedMessage_not_rechunk c :
  String.eqb (exhaustedMessage c) RECHUNK_NEEDED = false.
Proof. reflexivity. Qed.

Section ExhaustionFacts.

Variable env : Env.
Hypothesis configured : apiKeyConfigured env = true.

Lemma chunkLoop_exhausts progressCallback total c rest i results w :
  (forall k, (k < 6)%nat -> failsOtherwise env (requests w + k)) ->
  chunkLoop env progressCallback total (c :: rest) i results w
  = (Throw (mkError (exhaustedMessage c)),
     exhaustedWorld progressCallback total i c w).
Proof.
  intros Hfail.
  destruct (Hfail 0%nat) as [error [Hstt Hcls]]; [lia |].
  rewrite Nat.add_0_r in Hstt.
  rewrite chunkLoop_cons. unfold bind. rewrite report_run. unfold try_.
  rewrite (transcribeSingleFile_rejected env configured (path c) _ error)
    by exact Hstt.
  cbn [message]. apply String.eqb_neq in Hcls. rewrite Hcls.
  rewrite (retryLoop_all_fail env configured).
  - unfold throw, exhaustedWorld, afterAttempt. cbn [requests trace].
    f_equal. f_equal; [unfold MAX_RETRIES; lia |].
    now rewrite <- !app_assoc.
  - intros k Hk. unfold afterAttempt. cbn [requests].
    replace (S (requests w) + k)%nat with (requests w + S k)%nat by lia.
    apply Hfail. unfold MAX_RETRIES in Hk. lia.
Qed.

End ExhaustionFacts.

(** C5. The delays before retries 1 to 5 are 5, 10, 20, 40 and 80 seconds,
    that is [2^k * 2.5 s]; whatever the service answers, the retry loop of a
    chunk consists of at most 5 attempts, each after a sleep of the delay
    of its number; and when a drive has reached a chunk whose first
    call and 5 retries are all rejected otherwise than as too large, the
    drive throws the exhaustion error naming the chunk's index, and so does
    the pipeline step around the drive, in the same world: nothing is
    planned or driven again. *)
Theorem C5_bounded_backoff_then_exhausted
        (env : Env) (progressCallback : bool) (pre rest : list Chunk) (c : Chunk)
        (w w' : World) (results' : list ChunkResult) (processed : Processed) :
  apiKeyConfigured env = true ->
  chunks processed = pre ++ c :: rest ->
  chunkLoop env progressCallback (List.length (pre ++ c :: rest)) pre 0 [] w
  = (Ok (results', false), w') ->
  (forall k, (k < 6)%nat -> failsOtherwise env (requests w' + k)) ->
  map retryDelay (seq 1 MAX_RETRIES) = [5000; 10000; 20000; 40000; 80000]%Z
  /\ (forall w0, exists k,
         (k <= MAX_RETRIES)%nat
         /\ trace (snd (retryLoop env c MAX_RETRIES 1 w0))
            = trace w0 ++ retryEvents c 1 k)
  /\ transcribeChunks env (pre ++ c :: rest) progressCallback w
     = (Throw (mkError (exhaustedMessage c)),
        exhaustedWorld progressCallback (List.length (pre ++ c :: rest))
                       (List.length pre) c w')
  /\ driveWithRechunk env processed progressCallback w
     = (Throw (mkError (exhaustedMessage c)),
        exhaustedWorld progressCallback (List.length (pre ++ c :: rest))
                       (List.length pre) c w').
Proof.
  intros Hkey Hchunks Hreach Hfail.
  assert (Hdrive :
            transcribeChunks env (pre ++ c :: rest) progressCallback w
            = (Throw (mkError (exhaustedMessage c)),
               exhaustedWorld progressCallback (List.length (pre ++ c :: rest))
                              (List.length pre) c w')).
  { unfold transcribeChunks. apply bind_throw.
    rewrite chunkLoop_app, Hreach. simpl plus.
    now apply chunkLoop_exhausts. }
  split; [reflexivity |].
  split; [intros w0; now apply retryLoop_trace |].
  split; [exact Hdrive |].
  unfold driveWithRechunk. rewrite Hchunks.
  unfold bind, try_. rewrite Hdrive. cbn [message].
  now rewrite exhaustedMessage_not_rechunk.
Qed.

Lemma C5_bounded_backoff_then_exhausted_witness :
  let w' := mkWorld 1 [EvTranscribe (path chunk0)] in
  map retryDelay (seq 1 MAX_RETRIES) = [5000; 10000; 20000; 40000; 80000]%Z
  /\ (forall w0, exists k,
         (k <= MAX_RETRIES)%nat
         /\ trace (snd (retryLoop env_flaky chunk1 MAX_RETRIES 1 w0))
            = trace w0 ++ retryEvents chunk1 1 k)
  /\ transcribeChunks env_flaky ([chunk0] ++ chunk1 :: [chunk2]) false world0
     = (Throw (mkError (exhaustedMessage chunk1)),
        exhaustedWorld false (List.length ([chunk0] ++ chunk1 :: [chunk2]))
                       (List.length [chunk0]) chunk1 w')
  /\ driveWithRechunk env_flaky processed3 false world0
     = (Throw (mkError (exhaustedMessage chunk1)),
        exhaustedWorld false (List.length ([chunk0] ++ chunk1 :: [chunk2]))
                       (List.length [chunk0]) chunk1 w').
Proof.
  intros w'.
  apply (C5_bounded_backoff_then_exhausted
           env_flaky false [chunk0] [chunk2] chunk1 world0 w'
           [mkChunkResult chunk0
              (mkTranscription (utf16 "one") (Some "english"%string) 1
                               [mkSegment 0 0 1 (utf16 "one")])]
           processed3).
  - reflexivity.
  - reflexivity.
  - vm_compute. reflexivity.
  - intros k Hk.
    do 6 (destruct k as [| k];
          [eexists; split; [reflexivity | vm_compute; discriminate] |]).
    lia.
Defined.

(** *** Classification of rejections *)

Lemma checkAPIQuotaError_not_too_large error quotaError :
  checkAPIQuotaError error = Some quotaError -> quotaError <> PAYLOAD_TOO_LARGE.
Proof.
  unfold checkAPIQuotaError.
  repeat match goal with
         | |- context [if ?b then _ else _] => destruct b
         end; intros H; inversion H; subst; clear H;
    apply String.eqb_neq; reflexivity.
Qed.

Lemma unauthorizedOrQuota_reported error :
  unauthorizedOrQuota error -> checkAPIQuotaError error <> None.
Proof.
  unfold unauthorizedOrQuota, checkAPIQuotaError. intros H.
  destruct (hasStatus error 429); [discriminate |].
  destruct (hasStatus error 401) eqn:E1; [discriminate |].
  destruct (hasStatus error 402 || hasCode error "insufficient_quota") eqn:E2;
    [discriminate |].
  destruct (includes (api_message error) "quota") eqn:E3; [discriminate |].
  destruct (includes (api_message error) "billing") eqn:E4; [discriminate |].
  apply orb_false_elim in E2. destruct E2 as [E2 E2'].
  destruct H as [H | [H | [H | [H | H]]]]; congruence.
Qed.

Lemma classify_not_too_large error :
  unauthorizedOrQuota error \/ rateLimitedOrUnknown error ->
  classify error <> PAYLOAD_TOO_LARGE.
Proof.
  intros H. unfold classify.
  destruct (checkAPIQuotaError error) as [q |] eqn:E.
  - now apply (checkAPIQuotaError_not_too_large error).
  - destruct H as [H | [H | [_ [H1 H2]]]].
    + now apply unauthorizedOrQuota_reported in H.
    + unfold checkAPIQuotaError in E. rewrite H in E. discriminate.
    + rewrite H1, H2. discriminate.
Qed.

(** *** The trace only grows *)

Lemma appends_ret {A} (a : A) : appends (ret a).
Proof. intros w. exists []. now rewrite app_nil_r. Qed.

Lemma appends_throw {A} msg : appends (@throw A msg).
Proof. intros w. exists []. now rewrite app_nil_r. Qed.

Lemma appends_emit e : appends (emit e).
Proof. intros w. now exists [e]. Qed.

Lemma appends_bind {A B} (m : M A) (k : A -> M B) :
  appends m -> (forall a, appends (k a)) -> appends (bind m k).
Proof.
  intros Hm Hk w. unfold bind. destruct (Hm w) as [t1 H1].
  destruct (m w) as [[a | e] w1]; simpl in H1.
  - destruct (Hk a w1) as [t2 H2]. exists (t1 ++ t2).
    now rewrite H2, H1, app_assoc.
  - now exists t1.
Qed.

Lemma appends_try {A} (m : M A) : appends m -> appends (try_ m).
Proof.
  intros Hm w. unfold try_. destruct (Hm w) as [t H].
  destruct (m w) as [r w1]. now exists t.
Qed.

Lemma appends_transcribeSingleFile env p : appends (transcribeSingleFile env p).
Proof.
  intros w. unfold transcribeSingleFile.
  destruct (apiKeyConfigured env); simpl.
  - destruct (stt env (requests w)); now eexists.
  - exists []. now rewrite app_nil_r.
Qed.

Lemma appends_retryLoop env c : forall remaining attempt,
  appends (retryLoop env c remaining attempt).
Proof.
  induction remaining as [| remaining IH]; intros attempt; simpl.
  - apply appends_ret.
  - apply appends_bind; [apply appends_emit | intros _].
    apply appends_bind; [apply appends_try, appends_transcribeSingleFile |].
    intros [t | e]; [apply appends_ret |].
    destruct (String.eqb _ _); [apply appends_ret | apply IH].
Qed.

Lemma appends_report progressCallback p : appends (report progressCallback p).
Proof.
  unfold report. destruct progressCallback; [apply appends_emit | apply appends_ret].
Qed.

Lemma appends_chunkLoop env progressCallback total : forall rest i results,
  appends (chunkLoop env progressCallback total rest i results).
Proof.
  induction rest as [| c rest IH]; intros i results.
  - apply appends_ret.
  - rewrite chunkLoop_cons.
    apply appends_bind; [apply appends_report | intros _].
    apply appends_bind; [apply appends_try, appends_transcribeSingleFile |].
    intros [t | e]; [apply IH |].
    destruct (String.eqb _ _); [apply appends_ret |].
    apply appends_bind; [apply appends_retryLoop |].
    intros [t | |]; [apply IH | apply appends_ret | apply appends_throw].
Qed.

Lemma transcribeSingleFile_world env p w :
  apiKeyConfigured env = true ->
  snd (transcribeSingleFile env p w) = afterAttempt p w.
Proof.
  intros H. unfold transcribeSingleFile. rewrite H. simpl.
  now destruct (stt env (requests w)).
Qed.

(** C2, as the code has it.  Whatever the classification of a rejected
    first call on a chunk, short of too large -- key invalid (401), credits
    or quota or billing (402 and the keywords), rate limit (429) or none of
    these -- the driver does not propagate it: it sleeps 5 s and sends the
    same file again. *)
Theorem C2_every_other_rejection_is_retried
        (env : Env) (progressCallback : bool) (total : nat) (c : Chunk)
        (rest : list Chunk) (i : nat) (results : list ChunkResult) (w : World)
        (error : ApiError) :
  apiKeyConfigured env = true ->
  stt env (requests w) = Rejected error ->
  unauthorizedOrQuota error \/ rateLimitedOrUnknown error ->
  retryDelay 1 = 5000%Z
  /\ exists tail,
      trace (snd (chunkLoop env progressCallback total (c :: rest) i results w))
      = trace w
        ++ progressEvents progressCallback (ChunkProgress (i + 1) total (index c))
        ++ EvTranscribe (path c) :: EvSleep (retryDelay 1)
           :: EvTranscribe (path c) :: tail.
Proof.
  intros Hkey Hstt Hclass. split; [reflexivity |].
  apply classify_not_too_large in Hclass. apply String.eqb_neq in Hclass.
  rewrite chunkLoop_cons. unfold bind at 1 2. rewrite report_run. unfold try_ at 1.
  rewrite (transcribeSingleFile_rejected env Hkey (path c) _ error) by exact Hstt.
  cbn [message]. rewrite Hclass.
  set (w1 := afterAttempt (path c) _).
  change (retryLoop env c MAX_RETRIES 1)
    with (sleep (retryDelay 1) ;;;
          r <- try_ (transcribeSingleFile env (path c)) ;;
          match r with
          | Ok t => ret (Retried t)
          | Throw retryError =>
              if String.eqb (message retryError) PAYLOAD_TOO_LARGE
              then ret TooLarge
              else retryLoop env c 4 2
          end)%js.
  unfold bind, sleep, emit, try_.
  set (w2 := mkWorld (requests w1) (trace w1 ++ [EvSleep (retryDelay 1)])).
  pose proof (transcribeSingleFile_world env (path c) w2 Hkey) as Hw3.
  destruct (transcribeSingleFile env (path c) w2) as [second w3].
  simpl in Hw3. subst w3.
  assert (Hprefix :
            forall tail,
              trace (afterAttempt (path c) w2) ++ tail
              = trace w
                ++ progressEvents progressCallback
                                  (ChunkProgress (i + 1) total (index c))
                ++ EvTranscribe (path c) :: EvSleep (retryDelay 1)
                   :: EvTranscribe (path c) :: tail).
  { intros tail. unfold afterAttempt, w2, w1, afterAttempt. cbn [trace requests].
    now rewrite <- !app_assoc. }
  destruct second as [t | e].
  - unfold ret.
    destruct (appends_chunkLoop env progressCallback total rest (S i)
                (results ++ [mkChunkResult c t]) (afterAttempt (path c) w2))
      as [tail Htail].
    exists tail. now rewrite Htail, Hprefix.
  - destruct (String.eqb (message e) PAYLOAD_TOO_LARGE).
    + exists []. unfold ret. simpl snd. now rewrite <- Hprefix, app_nil_r.
    + destruct (appends_retryLoop env c 4 2 (afterAttempt (path c) w2))
        as [t1 Ht1].
      destruct (retryLoop env c 4 2 (afterAttempt (path c) w2)) as [[o | e'] w4];
        simpl in Ht1.
      * destruct o as [t | |].
        -- destruct (appends_chunkLoop env progressCallback total rest (S i)
                       (results ++ [mkChunkResult c t]) w4) as [t2 Ht2].
           exists (t1 ++ t2). now rewrite Ht2, Ht1, <- app_assoc, Hprefix.
        -- exists t1. unfold ret. simpl snd. now rewrite Ht1, Hprefix.
        -- exists t1. unfold throw. simpl snd. now rewrite Ht1, Hprefix.
      * exists t1. simpl snd. now rewrite Ht1, Hprefix.
Qed.

Lemma C2_every_other_rejection_is_retried_witness :
  retryDelay 1 = 5000%Z
  /\ exists tail,
      trace (snd (chunkLoop env_401 false 3 (chunk0 :: [chunk1; chunk2]) 0 [] world0))
      = trace world0
        ++ progressEvents false (ChunkProgress (0 + 1) 3 (index chunk0))
        ++ EvTranscribe (path chunk0) :: EvSleep (retryDelay 1)
           :: EvTranscribe (path chunk0) :: tail.
Proof.
  apply (C2_every_other_rejection_is_retried
           env_401 false 3 chunk0 [chunk1; chunk2] 0 [] world0
           (mkApiError (Some 401%Z) None "Incorrect API key provided")).
  - reflexivity.
  - reflexivity.
  - left. left. reflexivity.
Defined.

(** C2, as worded, fails on a drive whose first request is answered 401:
    the failure is not propagated; the driver sleeps 5 s, sends chunk 0
    again and the drive succeeds. *)
Lemma C2_unauthorized_is_retried_counterexample :
  stt env_401 0 = http 401 "Incorrect API key provided"
  /\ unauthorizedOrQuota (mkApiError (Some 401%Z) None "Incorrect API key provided")
  /\ exists results w,
      transcribeChunks env_401 plan3 false world0 = (Ok results, w)
      /\ map chunk results = plan3
      /\ sleepsOf (trace w) = [5000%Z]
      /\ attemptsOf (trace w)
         = [path chunk0; path chunk0; path chunk1; path chunk2].
Proof.
  split; [reflexivity |]. split; [left; reflexivity |].
  eexists. eexists. split; [vm_compute; reflexivity |].
  repeat split; reflexivity.
Qed.

(** ** Re-planning *)

Lemma plansNothing_ret {A} (a : A) : plansNothing (ret a).
Proof. intros w. reflexivity. Qed.

Lemma plansNothing_throw {A} msg : plansNothing (@throw A msg).
Proof. intros w. reflexivity. Qed.

Lemma plansNothing_bind {A B} (m : M A) (k : A -> M B) :
  plansNothing m -> (forall a, plansNothing (k a)) -> plansNothing (bind m k).
Proof.
  intros Hm Hk w. unfold bind. specialize (Hm w).
  destruct (m w) as [[a | e] w1]; simpl in Hm.
  - now rewrite Hk.
  - exact Hm.
Qed.

Lemma plansNothing_try {A} (m : M A) : plansNothing m -> plansNothing (try_ m).
Proof.
  intros Hm w. unfold try_. specialize (Hm w). now destruct (m w).
Qed.

Lemma plansNothing_emit e :
  (forall d, e <> EvSplit d) -> plansNothing (emit e).
Proof.
  intros He w. unfold emit. simpl. rewrite splitsOf_app.
  destruct e; simpl; try apply app_nil_r. now destruct (He chunkDuration).
Qed.

Lemma plansNothing_report progressCallback p : plansNothing (report progressCallback p).
Proof.
  unfold report. destruct progressCallback; [| apply plansNothing_ret].
  apply plansNothing_emit. discriminate.
Qed.

Lemma plansNothing_transcribeSingleFile env p :
  plansNothing (transcribeSingleFile env p).
Proof.
  intros w. unfold transcribeSingleFile.
  destruct (apiKeyConfigured env); [| reflexivity]. simpl.
  destruct (stt env (requests w)); simpl; rewrite splitsOf_app; apply app_nil_r.
Qed.

Lemma plansNothing_retryLoop env c : forall remaining attempt,
  plansNothing (retryLoop env c remaining attempt).
Proof.
  induction remaining as [| remaining IH]; intros attempt; simpl.
  - apply plansNothing_ret.
  - apply plansNothing_bind; [apply plansNothing_emit; discriminate | intros _].
    apply plansNothing_bind;
      [apply plansNothing_try, plansNothing_transcribeSingleFile |].
    intros [t | e]; [apply plansNothing_ret |].
    destruct (String.eqb _ _); [apply plansNothing_ret | apply IH].
Qed.

Lemma plansNothing_chunkLoop env progressCallback total : forall rest i results,
  plansNothing (chunkLoop env progressCallback total rest i results).
Proof.
  induction rest as [| c rest IH]; intros i results.
  - apply plansNothing_ret.
  - rewrite chunkLoop_cons.
    apply plansNothing_bind; [apply plansNothing_report | intros _].
    apply plansNothing_bind;
      [apply plansNothing_try, plansNothing_transcribeSingleFile |].
    intros [t | e]; [apply IH |].
    destruct (String.eqb _ _); [apply plansNothing_ret |].
    apply plansNothing_bind; [apply plansNothing_retryLoop |].
    intros [t | |]; [apply IH | apply plansNothing_ret | apply plansNothing_throw].
Qed.

Lemma plansNothing_transcribeChunks env chunks progressCallback :
  plansNothing (transcribeChunks env chunks progressCallback).
Proof.
  unfold transcribeChunks.
  apply plansNothing_bind; [apply plansNothing_chunkLoop |].
  intros [rs flag]. simpl.
  destruct flag; [apply plansNothing_throw | apply plansNothing_ret].
Qed.

Lemma plansNothing_cleanupChunks paths : plansNothing (cleanupChunks paths).
Proof.
  induction paths as [| p paths IH]; simpl; [apply plansNothing_ret |].
  apply plansNothing_bind; [apply plansNothing_emit; discriminate | intros _; exact IH].
Qed.

(** Cleaning up never throws. *)
Lemma cleanupChunks_ok paths : forall w, fst (cleanupChunks paths w) = Ok tt.
Proof.
  induction paths as [| p paths IH]; intros w; [reflexivity |].
  simpl. unfold bind, emit. apply IH.
Qed.

Lemma splitIntoChunksM_splits env base D C w :
  splitsOf (trace (snd (splitIntoChunksM env base D C w))) = splitsOf (trace w) ++ [C].
Proof.
  unfold splitIntoChunksM, bind, emit.
  destruct (splitIntoChunks _ _ _ _ _) as [[cs | e] |]; simpl;
    now rewrite splitsOf_app.
Qed.

(** A run of [driveWithRechunk] plans at most once, and then always with
    chunks of 300 s: exactly when the first drive asks for smaller chunks. *)
Lemma driveWithRechunk_splits env processed progressCallback w :
  splitsOf (trace (snd (driveWithRechunk env processed progressCallback w)))
  = splitsOf (trace w)
    ++ match fst (transcribeChunks env (chunks processed) progressCallback w) with
       | Throw e => if String.eqb (message e) RECHUNK_NEEDED then [300] else []
       | Ok _ => []
       end.
Proof.
  unfold driveWithRechunk. unfold bind at 1. unfold try_.
  pose proof (plansNothing_transcribeChunks env (chunks processed) progressCallback w)
    as H1.
  destruct (transcribeChunks env (chunks processed) progressCallback w)
    as [[rs | e] w1]; simpl in H1; simpl fst.
  - simpl. now rewrite H1, app_nil_r.
  - destruct (String.eqb (message e) RECHUNK_NEEDED) eqn:Heq; rewrite ?Heq.
    + unfold bind at 1. rewrite report_run.
      set (w2 := mkWorld _ _).
      assert (H2 : splitsOf (trace w2) = splitsOf (trace w)).
      { unfold w2. simpl. rewrite splitsOf_app, H1.
        unfold progressEvents. destruct progressCallback; apply app_nil_r. }
      unfold bind at 1.
      pose proof (plansNothing_cleanupChunks (map path (chunks processed)) w2) as H3.
      pose proof (cleanupChunks_ok (map path (chunks processed)) w2) as Hok.
      destruct (cleanupChunks (map path (chunks processed)) w2) as [[[] | e3] w3];
        cbn [snd fst] in H3, Hok; [| discriminate Hok].
      unfold bind at 1. unfold rechunkWithSmallerSize.
      pose proof (splitIntoChunksM_splits env (wavBase processed)
                    (p_duration processed) 300 w3) as H4.
      destruct (splitIntoChunksM env (wavBase processed) (p_duration processed) 300 w3)
        as [[smaller | e4] w4]; simpl in H4.
      * pose proof (plansNothing_bind
                      (transcribeChunks env smaller progressCallback)
                      (fun chunkResults => ret (chunkResults, smaller))
                      (plansNothing_transcribeChunks env smaller progressCallback)
                      (fun a => plansNothing_ret _) w4) as H5.
        rewrite H5, H4, H3, H2. reflexivity.
      * simpl. now rewrite H4, H3, H2.
    + simpl. now rewrite H1, app_nil_r.
Qed.

(** C3, at an upload of 60 MiB.  The first plan of such an upload is
    already cut every 300 s; when its drive is answered 413 the pipeline
    plans again, with 300 s once more, and drives the same windows a second
    time: the re-plan is not smaller than the plan it replaces. *)
Theorem C3_large_upload_replans_at_same_size :
  initialChunkDuration (MB (60 * MiB)) = 300
  /\ exists t w,
      transcribeWithRetry env_60MiB "uploads/a.webm" (Some 7%nat) false world0 = (Ok t, w)
      /\ splitsOf (trace w) = [300; 300]
      /\ attemptsOf (trace w)
         = [ "storage/chunks/meeting-7-converted_chunk0.wav";
             "storage/chunks/meeting-7-converted_chunk0.wav";
             "storage/chunks/meeting-7-converted_chunk1.wav";
             "storage/chunks/meeting-7-converted_chunk2.wav" ]%string.
Proof.
  split; [reflexivity |].
  eexists. eexists. split; [vm_compute; reflexivity |].
  split; reflexivity.
Qed.

(** A second 413, during the drive over the re-plan, ends the pipeline with
    [RECHUNK_NEEDED]; two plans were made, none after the second drive. *)
Example second_rechunk_is_fatal :
  exists w,
    transcribeWithRetry env_413_twice "uploads/a.webm" (Some 7%nat) false world0
    = (Throw (mkError RECHUNK_NEEDED), w)
    /\ splitsOf (trace w) = [600; 300].
Proof.
  eexists. split; [vm_compute; reflexivity | reflexivity].
Qed.

(** ** The orchestrator *)

Section OrchestratorFacts.

Variable sv : Services.
Variable meetingId : nat.
Variable PROCESSING_TIMEOUT : Z.

Lemma recordFailure_marks d error m :
  d meetingId = Some m ->
  exists m',
    recordFailure meetingId d error meetingId = Some m'
    /\ transcript_path m' = Some ("ERROR: " ++ message error)%string
    /\ m_duration m' = Some 0%Z
    /\ summary_path m' = None.
Proof.
  intros H. unfold recordFailure, getMeetingById, updateMeeting. rewrite H.
  rewrite Nat.eqb_refl, H. eexists. repeat split.
Qed.

Lemma resume_keeps_row p d m :
  d meetingId = Some m ->
  exists m', snd (resume sv meetingId p d) meetingId = Some m'.
Proof.
  intros H. destruct p; simpl.
  - destruct (transcribed sv); eauto.
  - destruct (saveTranscript sv); eauto.
  - destruct (analyzeMeeting sv); eauto.
  - destruct (saveSummary sv) as [msg | summaryPath]; [eauto |].
    destruct (saveTranscript sv) as [timestamp |]; [| eauto].
    unfold recordSuccess, getMeetingById. rewrite H.
    destruct (transcribed sv); simpl; [| eauto].
    unfold updateMeeting. rewrite Nat.eqb_refl, H. eauto.
  - destruct (buildSearchIndex sv); eauto.
Qed.

(** Whenever a step of the event loop rejects the promise of
    [processMeeting], that step leaves the error marker of the rejection,
    with duration 0, in the row of the meeting. *)
Lemma tick_rejection_marks s t error m :
  outer s = Pending ->
  db s meetingId = Some m ->
  outer (tick sv meetingId PROCESSING_TIMEOUT s t) = RejectedWith error ->
  exists m',
    db (tick sv meetingId PROCESSING_TIMEOUT s t) meetingId = Some m'
    /\ transcript_path m' = Some ("ERROR: " ++ message error)%string
    /\ m_duration m' = Some 0%Z
    /\ summary_path m' = None.
Proof.
  intros Hpending Hrow Hrej. destruct t; simpl in *.
  - destruct (inner s) as [p | | e]; try congruence.
    destruct (resume_keeps_row p (db s) m Hrow) as [m1 Hm1].
    destruct (resume sv meetingId p (db s)) as [i d1]. simpl in Hm1.
    rewrite Hpending in *. simpl in *.
    destruct i as [p' | | e]; simpl in *; try congruence.
    inversion Hrej; subst. eapply recordFailure_marks; eassumption.
  - rewrite Hpending in *. simpl in *. inversion Hrej; subst.
    eapply recordFailure_marks; eassumption.
Qed.

Lemma tick_keeps_row s t m :
  db s meetingId = Some m ->
  exists m', db (tick sv meetingId PROCESSING_TIMEOUT s t) meetingId = Some m'.
Proof.
  intros Hrow. destruct t; simpl.
  - destruct (inner s) as [p | | e]; eauto.
    destruct (resume_keeps_row p (db s) m Hrow) as [m1 Hm1].
    destruct (resume sv meetingId p (db s)) as [i d1]. simpl in Hm1.
    destruct (outer s), i; simpl; eauto.
    destruct (recordFailure_marks d1 e m1 Hm1) as [m2 [H2 _]]. eauto.
  - destruct (outer s); simpl; eauto.
    destruct (recordFailure_marks (db s) (timeoutError meetingId PROCESSING_TIMEOUT)
                m Hrow) as [m2 [H2 _]]. eauto.
Qed.

(** A settled promise stays as it is. *)
Lemma tick_outer_stable s t :
  outer s <> Pending -> outer (tick sv meetingId PROCESSING_TIMEOUT s t) = outer s.
Proof.
  intros H. destruct t; simpl.
  - destruct (inner s) as [p | | e]; try reflexivity.
    destruct (resume sv meetingId p (db s)) as [i d1].
    destruct (outer s), i; simpl; congruence.
  - destruct (outer s) eqn:E; simpl; congruence.
Qed.

Lemma run_outer_stable schedule : forall s,
  outer s <> Pending ->
  outer (fold_left (tick sv meetingId PROCESSING_TIMEOUT) schedule s) = outer s.
Proof.
  induction schedule as [| t schedule IH]; intros s H; [reflexivity |].
  simpl. rewrite IH; rewrite tick_outer_stable; auto.
Qed.

(** Every run of [processMeeting] that ends rejected went through a step
    that rejected it and, in doing so, left the error marker of that very
    rejection, with duration 0, in the row of the meeting. *)
Lemma run_rejection_marks schedule : forall s m error,
  outer s = Pending ->
  db s meetingId = Some m ->
  outer (fold_left (tick sv meetingId PROCESSING_TIMEOUT) schedule s)
  = RejectedWith error ->
  exists before t after m',
    schedule = before ++ t :: after
    /\ outer (fold_left (tick sv meetingId PROCESSING_TIMEOUT) before s) = Pending
    /\ db (fold_left (tick sv meetingId PROCESSING_TIMEOUT) (before ++ [t]) s) meetingId
       = Some m'
    /\ transcript_path m' = Some ("ERROR: " ++ message error)%string
    /\ m_duration m' = Some 0%Z
    /\ summary_path m' = None.
Proof.
  induction schedule as [| t schedule IH]; intros s m error Hpending Hrow Hrej.
  - simpl in Hrej. congruence.
  - simpl in Hrej.
    destruct (outer (tick sv meetingId PROCESSING_TIMEOUT s t)) eqn:Ho.
    + destruct (tick_keeps_row s t m Hrow) as [m1 Hm1].
      destruct (IH _ m1 error Ho Hm1 Hrej)
        as [before [t' [after [m' [Hs [Hp Hm']]]]]].
      exists (t :: before), t', after, m'. subst schedule. auto.
    + rewrite run_outer_stable in Hrej by congruence. congruence.
    + rewrite run_outer_stable in Hrej by congruence.
      rewrite Ho in Hrej. inversion Hrej; subst e.
      destruct (tick_rejection_marks s t error m Hpending Hrow Ho) as [m' Hm'].
      exists [], t, schedule, m'. auto.
Qed.

End OrchestratorFacts.

(** C1, under a late result.  Meeting 7 runs into its deadline while the
    transcription is in flight: the promise is rejected with the time-out
    and the row gets the error marker and duration 0.  The abandoned body
    is not stopped; when its awaited operations settle it reaches its own
    update of the row and replaces the marker by the path of the transcript
    and the summary. *)
Theorem C1_late_success_overwrites_sentinel :
  let expired := processMeeting services_ok 7 timeout7 db7 [Timer] in
  let later := processMeeting services_ok 7 timeout7 db7
                              [Timer; Resume; Resume; Resume; Resume; Resume] in
  outer expired = RejectedWith (timeoutError 7 timeout7)
  /\ option_map transcript_path (db expired 7%nat)
     = Some (Some "ERROR: Meeting 7 processing timed out after 300s"%string)
  /\ option_map m_duration (db expired 7%nat) = Some (Some 0%Z)
  /\ outer later = RejectedWith (timeoutError 7 timeout7)
  /\ inner later = Completed
  /\ option_map transcript_path (db later 7%nat)
     = Some (Some "/storage/transcripts/meeting-7-1234.txt"%string)
  /\ option_map isErrorSentinel (db later 7%nat) = Some false.
Proof.
  vm_compute. repeat split; reflexivity.
Qed.

(** ** Deadline and first plan *)

(** Whatever happens, [processLargeAudio] plans at most once, and then
    with the chunk duration chosen from the size ffprobe reports for the
    uploaded file. *)
Lemma processLargeAudio_splits env meetingId w :
  exists planned,
    splitsOf (trace (snd (processLargeAudio env meetingId w)))
    = splitsOf (trace w) ++ planned
    /\ (planned = []
        \/ exists metadata,
            probeAudio env = inr metadata
            /\ planned = [initialChunkDuration (MB (format_size metadata))]).
Proof.
  assert (Hnone : forall w', splitsOf (trace w') = splitsOf (trace w) ->
                             exists planned,
                               splitsOf (trace w') = splitsOf (trace w) ++ planned
                               /\ (planned = []
                                   \/ exists metadata,
                                       probeAudio env = inr metadata
                                       /\ planned = [initialChunkDuration
                                                       (MB (format_size metadata))])).
  { intros w' H. exists []. split; [now rewrite app_nil_r | now left]. }
  unfold processLargeAudio.
  destruct (probeAudio env) as [msg | metadata] eqn:Hprobe; [now apply Hnone |].
  unfold external at 1. unfold bind at 1. unfold ret at 1.
  unfold bind at 1. unfold emit at 1.
  set (w1 := mkWorld _ _).
  assert (H1 : splitsOf (trace w1) = splitsOf (trace w)).
  { unfold w1. simpl. rewrite splitsOf_app. apply app_nil_r. }
  destruct (convertToWav env) as [msg | wavSize]; [now apply Hnone |].
  unfold external at 1. unfold bind at 1. unfold ret at 1.
  unfold bind at 1.
  set (getDuration := if Qeq_bool (durationOr0 metadata) 0 then _ else _).
  assert (H2 : snd (getDuration w1) = w1).
  { unfold getDuration. destruct (Qeq_bool (durationOr0 metadata) 0); [| reflexivity].
    destruct (probeWav env) as [msg | wavMetadata]; [reflexivity |].
    unfold external, bind, ret.
    destruct (Qeq_bool (durationOr0 wavMetadata) 0); reflexivity. }
  destruct (getDuration w1) as [[durationSeconds | e] w2]; simpl in H2; subst w2;
    [| now apply Hnone].
  destruct (Qle_bool (MB wavSize) TARGET_SIZE_MB); [now apply Hnone |].
  exists [initialChunkDuration (MB (format_size metadata))].
  split; [| right; exists metadata; now split].
  unfold bind at 1.
  pose proof (splitIntoChunksM_splits env
                ("meeting-" ++ Js.showNat meetingId ++ "-converted")
                durationSeconds (initialChunkDuration (MB (format_size metadata))) w1)
    as H3.
  destruct (splitIntoChunksM env _ durationSeconds _ w1) as [[cs | e] w3];
    cbn [snd] in H3 |- *; unfold ret; cbn [snd]; now rewrite H3, H1.
Qed.



(** * Further properties of the code *)

(** ** The planner: what ffmpeg is asked for *)

(** A plan from position [s] and ordinal [i]: the first entry stands at
    [s], every later one at least one chunk duration further. *)
Lemma Plan_positions D C s i cs :
  0 < C ->
  Plan D C s i cs ->
  Forall (fun c => (index c = i /\ startTime c = s)
                   \/ ((i < index c)%nat /\ s + C <= startTime c)) cs.
Proof.
  intros HC. induction 1 as [| s i c cs Hs Hi Hst Hen Hdur Hrest IH]; constructor.
  - now left.
  - eapply Forall_impl; [| exact IH]. simpl.
    intros a [[Ha1 Ha2] | [Ha1 Ha2]]; right; split; try lia.
    + rewrite Ha2. lra.
    + lra.
Qed.

(** A run of the loop consults ffmpeg at the arguments of the entries it
    returns and nowhere else. *)
Lemma splitLoop_consults extractRange extractRange' base D C :
  forall fuel chunks s result,
    splitLoop extractRange base D C fuel chunks s = Some (Ok result) ->
    (forall c, In c result ->
               extractRange' (fst (seekArgs c)) (snd (seekArgs c))
               = extractRange (fst (seekArgs c)) (snd (seekArgs c))) ->
    splitLoop extractRange' base D C fuel chunks s = Some (Ok result).
Proof.
  induction fuel as [| fuel IH]; intros chunks s result Hrun Hsame; simpl in *.
  - destruct (Qlt_le_dec s D); [discriminate | exact Hrun].
  - destruct (Qlt_le_dec s D) as [Hlt | Hge]; [| exact Hrun].
    destruct (extractRange (seekStartOf (List.length chunks) s)
                (seekDurationOf (List.length chunks) (Js.Math_min (s + C) D - s)))
      as [msg | size] eqn:Hex; [discriminate |].
    pose proof Hrun as Hsound. apply splitLoop_sound in Hsound.
    destruct Hsound as [out [Hres _]].
    match type of Hres with
    | _ = (chunks ++ [?c]) ++ _ => set (c0 := c) in *
    end.
    assert (Hin : In c0 result).
    { rewrite Hres. apply in_or_app. left. apply in_or_app. right. now left. }
    specialize (Hsame c0 Hin) as Hc0. unfold seekArgs in Hc0. simpl in Hc0.
    rewrite Hc0, Hex. now apply IH.
Qed.

(** The file of a chunk.  When the chunk duration is at least the overlap,
    a run of [splitIntoChunks] asks ffmpeg for exactly one range per entry:
    for the first entry its own window, for every later one the window
    widened by 2 s at its start; each range ends where the window ends. *)
Theorem splitIntoChunks_extracted_ranges
        (extractRange : Q -> Q -> string + Z) (base : string) (D C : Q)
        (fuel : nat) (chunks : list Chunk) :
  CHUNK_OVERLAP_SECONDS <= C ->
  splitIntoChunks extractRange base D C fuel = Some (Ok chunks) ->
  (forall extractRange',
      (forall c, In c chunks ->
                 extractRange' (fst (seekArgs c)) (snd (seekArgs c))
                 = extractRange (fst (seekArgs c)) (snd (seekArgs c))) ->
      splitIntoChunks extractRange' base D C fuel = Some (Ok chunks))
  /\ Forall (fun c =>
               fst (seekArgs c) + snd (seekArgs c) == endTime c
               /\ (index c = 0%nat -> fst (seekArgs c) = startTime c)
               /\ ((0 < index c)%nat ->
                   fst (seekArgs c) == startTime c - CHUNK_OVERLAP_SECONDS))
            chunks.
Proof.
  intros HC Hrun. split.
  { intros extractRange' Hsame. unfold splitIntoChunks in *.
    eapply splitLoop_consults; eassumption. }
  assert (HCpos : 0 < C) by (unfold CHUNK_OVERLAP_SECONDS in HC; lra).
  pose proof Hrun as Hs. apply splitLoop_sound in Hs.
  destruct Hs as [out [Hout Hplan]]. simpl in Hout, Hplan. subst out.
  pose proof (Plan_positions D C 0 0 chunks HCpos Hplan) as Hpos.
  pose proof (Plan_duration D C 0 0 chunks Hplan) as Hdur.
  rewrite Forall_forall in *. intros c Hin.
  specialize (Hpos c Hin). specialize (Hdur c Hin).
  unfold seekArgs, seekStartOf, seekDurationOf, CHUNK_OVERLAP_SECONDS in *.
  cbn [fst snd]. rewrite Hdur.
  destruct Hpos as [[Hi Hst] | [Hi Hst]].
  - rewrite Hi. simpl. split; [lra |]. split; [reflexivity | lia].
  - destruct (0 <? index c)%nat eqn:E; [| apply Nat.ltb_ge in E; lia].
    destruct (Math_max_cases 0 (startTime c - 2)) as [[? Em] | [? Em]];
      rewrite Em; (split; [lra |]); (split; [lia |]); intros _; lra.
Qed.

Lemma splitIntoChunks_extracted_ranges_witness :
  (forall extractRange',
      (forall c, In c plan3 ->
                 extractRange' (fst (seekArgs c)) (snd (seekArgs c))
                 = (fun _ _ => inr 0%Z) (fst (seekArgs c)) (snd (seekArgs c))) ->
      splitIntoChunks extractRange' "m" 1800 600 3 = Some (Ok plan3))
  /\ Forall (fun c =>
               fst (seekArgs c) + snd (seekArgs c) == endTime c
               /\ (index c = 0%nat -> fst (seekArgs c) = startTime c)
               /\ ((0 < index c)%nat ->
                   fst (seekArgs c) == startTime c - CHUNK_OVERLAP_SECONDS))
            plan3.
Proof.
  apply (splitIntoChunks_extracted_ranges (fun _ _ => inr 0%Z) "m" 1800 600 3 plan3).
  - vm_compute. discriminate.
  - vm_compute. reflexivity.
Defined.

(** ** The planner: all or nothing, and when it does not return *)




(** A chunk duration that is not positive makes the loop stand still:
    on a recording of positive duration, while the extractions succeed, no
    number of iterations brings [splitIntoChunks] to an end. *)
Theorem splitIntoChunks_stands_still
        (extractRange : Q -> Q -> string + Z) (base : string) (D C : Q) (fuel : nat) :
  0 < D -> C <= 0 ->
  (forall a b, exists size, extractRange a b = inr size) ->
  splitIntoChunks extractRange base D C fuel = None.
Proof.
  intros HD HC Hex. unfold splitIntoChunks.
  assert (Hgen : forall fuel chunks s,
             s < D -> splitLoop extractRange base D C fuel chunks s = None).
  { clear fuel. induction fuel as [| fuel IH]; intros chunks s Hs; simpl.
    - destruct (Qlt_le_dec s D); [reflexivity | lra].
    - destruct (Qlt_le_dec s D); [| lra].
      destruct (Hex (seekStartOf (List.length chunks) s)
                  (seekDurationOf (List.length chunks)
                     (Js.Math_min (s + C) D - s))) as [size Hsize].
      rewrite Hsize. apply IH. lra. }
  now apply Hgen.
Qed.

Lemma splitIntoChunks_stands_still_witness :
  splitIntoChunks (fun _ _ => inr 0%Z) "m" 900 0 5 = None.
Proof.
  apply (splitIntoChunks_stands_still (fun _ _ => inr 0%Z) "m" 900 0 5).
  - reflexivity.
  - vm_compute. discriminate.
  - intros a b. exists 0%Z. reflexivity.
Defined.

(** ** The client: when a rejection counts as too large *)

Lemma classify_unknown_prefix error :
  checkAPIQuotaError error = None ->
  hasStatus error 413 || includes (api_message error) "413" = false ->
  classify error = ("Failed to transcribe audio: " ++ api_message error)%string.
Proof. intros H1 H2. unfold classify. now rewrite H1, H2. Qed.

(** The client throws [PAYLOAD_TOO_LARGE] exactly for a rejection that
    none of the key, credit, quota, billing and rate-limit rules claims and
    that has status 413 or "413" in its message.  A 413 whose message
    mentions the quota is reported as a quota problem instead. *)
Theorem classify_too_large_iff (error : ApiError) :
  classify error = PAYLOAD_TOO_LARGE
  <-> checkAPIQuotaError error = None
      /\ (hasStatus error 413 = true \/ includes (api_message error) "413" = true).
Proof.
  split.
  - intros H. destruct (checkAPIQuotaError error) as [q |] eqn:Eq.
    + exfalso. apply (checkAPIQuotaError_not_too_large error q Eq).
      unfold classify in H. now rewrite Eq in H.
    + split; [reflexivity |].
      destruct (hasStatus error 413 || includes (api_message error) "413") eqn:E.
      * now apply orb_true_iff in E.
      * rewrite (classify_unknown_prefix error Eq E) in H. discriminate H.
  - intros [Hq Hc]. unfold classify. rewrite Hq.
    assert (E : hasStatus error 413 || includes (api_message error) "413" = true).
    { apply orb_true_iff. exact Hc. }
    now rewrite E.
Qed.

(** The client never throws the driver's own signal. *)
Lemma classify_not_rechunk error : classify error <> RECHUNK_NEEDED.
Proof.
  unfold classify. destruct (checkAPIQuotaError error) as [q |] eqn:Eq.
  - revert Eq. unfold checkAPIQuotaError.
    repeat match goal with
           | |- context [if ?b then _ else _] => destruct b
           end; intros H; inversion H; subst; clear H;
      apply String.eqb_neq; reflexivity.
  - destruct (hasStatus error 413 || includes (api_message error) "413");
      discriminate.
Qed.

(** ** The deadline grows with the upload *)




(** ** The driver: order, budget and the ways it fails *)

Lemma totalSleep_app a b : totalSleep (a ++ b) = (totalSleep a + totalSleep b)%Z.
Proof.
  unfold totalSleep. rewrite sleepsOf_app.
  induction (sleepsOf a) as [| x l IH]; simpl; [reflexivity | lia].
Qed.

Lemma transcribeSingleFile_spec env p w :
  (requests w <= requests (snd (transcribeSingleFile env p w)) <= requests w + 1)%nat
  /\ sleepsOf (trace (snd (transcribeSingleFile env p w))) = sleepsOf (trace w)
  /\ (forall e, fst (transcribeSingleFile env p w) = Throw e ->
                message e = PAYLOAD_TOO_LARGE ->
                exists error,
                  stt env (requests w) = Rejected error
                  /\ classify error = PAYLOAD_TOO_LARGE
                  /\ requests (snd (transcribeSingleFile env p w)) = S (requests w)).
Proof.
  split; [| split; [apply transcribeSingleFile_sleeps |]].
  - unfold transcribeSingleFile. destruct (apiKeyConfigured env); simpl; [| lia].
    destruct (stt env (requests w)); simpl; lia.
  - unfold transcribeSingleFile. destruct (apiKeyConfigured env); simpl.
    + destruct (stt env (requests w)) as [r | error]; simpl; intros e He Hm.
      * discriminate.
      * inversion He; subst. simpl in Hm. eauto.
    + intros e He Hm. inversion He; subst. discriminate Hm.
Qed.

Lemma retryDelays_total k :
  (k <= MAX_RETRIES)%nat ->
  (0 <= fold_right Z.add 0 (map retryDelay (seq 1 k)) <= 155000)%Z.
Proof.
  unfold MAX_RETRIES. intros H.
  do 6 (destruct k as [| k]; [vm_compute; split; discriminate |]). lia.
Qed.

(** What a retry loop does to the world, and what its outcome tells. *)
Lemma retryLoop_spec env c : forall remaining attempt w,
  (requests w <= requests (snd (retryLoop env c remaining attempt w))
   <= requests w + remaining)%nat
  /\ match fst (retryLoop env c remaining attempt w) with
     | Ok TooLarge =>
         exists n error,
           (requests w <= n < requests (snd (retryLoop env c remaining attempt w)))%nat
           /\ stt env n = Rejected error
           /\ classify error = PAYLOAD_TOO_LARGE
     | Ok _ => True
     | Throw _ => False
     end.
Proof.
  induction remaining as [| remaining IH]; intros attempt w.
  - simpl. split; [lia | exact I].
  - simpl retryLoop. unfold bind, sleep, emit, try_.
    set (w1 := mkWorld (requests w) (trace w ++ [EvSleep (retryDelay attempt)])).
    destruct (transcribeSingleFile_spec env (path c) w1) as [Hreq [_ Hptl]].
    destruct (transcribeSingleFile env (path c) w1) as [[t | e] w2] eqn:Hts;
      simpl in Hreq, Hptl; change (requests w1) with (requests w) in *.
    + simpl. split; [lia | exact I].
    + destruct (String.eqb (message e) PAYLOAD_TOO_LARGE) eqn:Heq.
      * simpl. split; [lia |].
        apply String.eqb_eq in Heq.
        destruct (Hptl e eq_refl Heq) as [error [Hstt [Hcls Hw2]]].
        exists (requests w), error. repeat split; auto; lia.
      * specialize (IH (S attempt) w2). destruct IH as [Hreq' Hout].
        split; [lia |].
        destruct (fst (retryLoop env c remaining (S attempt) w2)) as [[t | |] | e'];
          auto.
        destruct Hout as [n [error [Hn Hrest]]].
        exists n, error. split; [lia | exact Hrest].
Qed.

Lemma retryLoop_sleep_budget env c w :
  (totalSleep (trace w)
   <= totalSleep (trace (snd (retryLoop env c MAX_RETRIES 1 w)))
   <= totalSleep (trace w) + 155000)%Z.
Proof.
  destruct (retryLoop_sleeps env c MAX_RETRIES 1 w) as [k [Hk Hs]].
  unfold totalSleep. rewrite Hs.
  pose proof (retryDelays_total k Hk) as Hb.
  assert (Happ : forall a b : list Z,
             fold_right Z.add 0%Z (a ++ b)
             = (fold_right Z.add 0 a + fold_right Z.add 0 b)%Z).
  { intros a b. induction a as [| x a IH]; simpl; lia. }
  rewrite Happ. lia.
Qed.

Lemma totalSleep_progress w progressCallback p :
  totalSleep (trace w ++ progressEvents progressCallback p) = totalSleep (trace w).
Proof.
  rewrite totalSleep_app. unfold progressEvents.
  destruct progressCallback; unfold totalSleep; simpl; lia.
Qed.

(** Everything the loop over the remaining chunks can do. *)
Lemma chunkLoop_spec env progressCallback total :
  forall rest i results w o w',
    chunkLoop env progressCallback total rest i results w = (o, w') ->
    (requests w <= requests w' <= requests w + 6 * List.length rest)%nat
    /\ (totalSleep (trace w) <= totalSleep (trace w')
        <= totalSleep (trace w) + 155000 * Z.of_nat (List.length rest))%Z
    /\ match o with
       | Ok (res, flag) =>
           (exists done,
               res = results ++ done
               /\ map chunk done = firstn (List.length done) rest
               /\ (flag = false -> map chunk done = rest))
           /\ (flag = true ->
               exists n error,
                 (requests w <= n < requests w')%nat
                 /\ stt env n = Rejected error
                 /\ classify error = PAYLOAD_TOO_LARGE)
       | Throw e => exists c, In c rest /\ e = mkError (exhaustedMessage c)
       end.
Proof.
  induction rest as [| c rest IH]; intros i results w o w' Hrun.
  - simpl in Hrun. unfold ret in Hrun. inversion Hrun; subst. simpl.
    split; [lia |]. split; [lia |]. split; [| discriminate].
    exists []. rewrite app_nil_r. auto.
  - rewrite chunkLoop_cons in Hrun. unfold bind in Hrun.
    rewrite report_run in Hrun. unfold try_ in Hrun.
    set (w0 := mkWorld (requests w) _) in Hrun.
    assert (Hs0 : totalSleep (trace w0) = totalSleep (trace w))
      by apply totalSleep_progress.
    destruct (transcribeSingleFile_spec env (path c) w0) as [Hreq [Hsl Hptl]].
    destruct (transcribeSingleFile env (path c) w0) as [[t | e] w2] eqn:Hts;
      simpl in Hreq, Hsl, Hptl; change (requests w0) with (requests w) in *.
    + assert (Hs2 : totalSleep (trace w2) = totalSleep (trace w))
        by (unfold totalSleep in *; now rewrite Hsl).
      apply IH in Hrun. destruct Hrun as [Hr [Hsleep Hout]].
      simpl List.length. split; [lia |]. split; [lia |].
      destruct o as [[res flag] | e].
      * destruct Hout as [[done [Hres [Hmap Hall]]] Hflag]. split.
        -- exists (mkChunkResult c t :: done). split; [now rewrite Hres, <- app_assoc |].
           simpl. split; [now rewrite Hmap | intros Hf; now rewrite Hall].
        -- intros Hf. destruct (Hflag Hf) as [n [error [Hn Hrest]]].
           exists n, error. split; [lia | exact Hrest].
      * destruct Hout as [c' [Hin He]]. exists c'. split; [now right | exact He].
    + assert (Hs2 : totalSleep (trace w2) = totalSleep (trace w))
        by (unfold totalSleep in *; now rewrite Hsl).
      destruct (String.eqb (message e) PAYLOAD_TOO_LARGE) eqn:Heq.
      * unfold ret in Hrun. inversion Hrun; subst. simpl List.length.
        split; [lia |]. split; [lia |]. split.
        -- exists []. rewrite app_nil_r. repeat split; auto. discriminate.
        -- intros _. apply String.eqb_eq in Heq.
           destruct (Hptl e eq_refl Heq) as [error [Hstt [Hcls Hw2]]].
           exists (requests w), error. repeat split; auto; lia.
      * destruct (retryLoop_spec env c MAX_RETRIES 1 w2) as [Hreq3 Hout3].
        pose proof (retryLoop_sleep_budget env c w2) as Hsl3.
        destruct (retryLoop env c MAX_RETRIES 1 w2) as [[[t | |] | e3] w3];
          simpl in Hreq3, Hout3, Hsl3; unfold MAX_RETRIES in Hreq3;
          [| | | contradiction].
        -- apply IH in Hrun. destruct Hrun as [Hr [Hsleep Hout]].
           simpl List.length. split; [lia |]. split; [lia |].
           destruct o as [[res flag] | e'].
           ++ destruct Hout as [[done [Hres [Hmap Hall]]] Hflag]. split.
              ** exists (mkChunkResult c t :: done).
                 split; [now rewrite Hres, <- app_assoc |].
                 simpl. split; [now rewrite Hmap | intros Hf; now rewrite Hall].
              ** intros Hf. destruct (Hflag Hf) as [n [error [Hn Hrest]]].
                 exists n, error. split; [lia | exact Hrest].
           ++ destruct Hout as [c' [Hin He]]. exists c'. split; [now right | exact He].
        -- unfold ret in Hrun. inversion Hrun; subst. simpl List.length.
           split; [lia |]. split; [lia |]. split.
           ++ exists []. rewrite app_nil_r. repeat split; auto. discriminate.
           ++ intros _. destruct Hout3 as [n [error [Hn Hrest]]].
              exists n, error. split; [lia | exact Hrest].
        -- unfold throw in Hrun. inversion Hrun; subst. simpl List.length.
           split; [lia |]. split; [lia |]. exists c. split; [now left | reflexivity].
Qed.

Lemma transcribeChunks_cases env chunks progressCallback w o w' :
  transcribeChunks env chunks progressCallback w = (o, w') ->
  exists o0,
    chunkLoop env progressCallback (List.length chunks) chunks 0 [] w = (o0, w')
    /\ o = match o0 with
           | Ok (res, true) => Throw (mkError RECHUNK_NEEDED)
           | Ok (res, false) => Ok res
           | Throw e => Throw e
           end.
Proof.
  unfold transcribeChunks, bind. intros H.
  destruct (chunkLoop env progressCallback (List.length chunks) chunks 0 [] w)
    as [[[res flag] | e] w1] eqn:Hloop.
  - simpl in H. destruct flag; inversion H; subst; eexists; split; reflexivity.
  - inversion H; subst. eexists; split; reflexivity.
Qed.

(** A drive that resolves returns one result per chunk of the plan, in the
    order of the plan, however many of the calls had to be repeated. *)
Theorem transcribeChunks_one_result_per_chunk
        (env : Env) (chunks : list Chunk) (progressCallback : bool)
        (w w' : World) (results : list ChunkResult) :
  transcribeChunks env chunks progressCallback w = (Ok results, w') ->
  map chunk results = chunks.
Proof.
  intros H. apply transcribeChunks_cases in H. destruct H as [o0 [Hloop Ho]].
  apply chunkLoop_spec in Hloop. destruct Hloop as [_ [_ Hout]].
  destruct o0 as [[res flag] | e]; [| discriminate].
  destruct flag; [discriminate |]. inversion Ho; subst.
  destruct Hout as [[done [Hres [_ Hall]]] _]. simpl in Hres. subst.
  now apply Hall.
Qed.

Lemma transcribeChunks_one_result_per_chunk_witness :
  map chunk (match fst (transcribeChunks env_401 plan3 false world0) with
             | Ok results => results
             | Throw _ => []
             end) = plan3.
Proof.
  apply (transcribeChunks_one_result_per_chunk
           env_401 plan3 false world0
           (snd (transcribeChunks env_401 plan3 false world0))).
  vm_compute. reflexivity.
Defined.

(** Whatever the service answers, a drive over [n] chunks sends at most
    [6 n] requests and sleeps at most [155 n] seconds in all. *)
Theorem transcribeChunks_budget
        (env : Env) (chunks : list Chunk) (progressCallback : bool) (w : World) :
  (requests (snd (transcribeChunks env chunks progressCallback w))
   <= requests w + 6 * List.length chunks)%nat
  /\ (totalSleep (trace (snd (transcribeChunks env chunks progressCallback w)))
      <= totalSleep (trace w) + 155000 * Z.of_nat (List.length chunks))%Z.
Proof.
  destruct (transcribeChunks env chunks progressCallback w) as [o w'] eqn:H.
  apply transcribeChunks_cases in H. destruct H as [o0 [Hloop _]].
  apply chunkLoop_spec in Hloop. cbn [snd]. split; [lia | lia].
Qed.



(** ** Conversion and first plan *)

Lemma splitIntoChunksM_ok env base D C w cs w' :
  splitIntoChunksM env base D C w = (Ok cs, w') ->
  splitIntoChunks (extractRange env) base D C (windowsLeft D C 0) = Some (Ok cs)
  /\ w' = mkWorld (requests w) (trace w ++ [EvSplit C]).
Proof.
  unfold splitIntoChunksM, bind, emit. intros H.
  destruct (splitIntoChunks _ _ _ _ _) as [[cs0 | e] |];
    unfold ret, rethrow, throw in H; inversion H; subst; auto.
Qed.

Lemma Qeq_bool_false (x y : Q) : Qeq_bool x y = false -> ~ x == y.
Proof.
  intros H E. apply Qeq_bool_iff in E. congruence.
Qed.

(** What is known when [processLargeAudio] resolves. *)
Lemma processLargeAudio_cases env meetingId w p w' :
  processLargeAudio env meetingId w = (Ok p, w') ->
  exists metadata wavSize,
    probeAudio env = inr metadata
    /\ convertToWav env = inr wavSize
    /\ wavBase p = ("meeting-" ++ Js.showNat meetingId ++ "-converted")%string
    /\ wavSizeMB p = MB wavSize
    /\ ~ p_duration p == 0
    /\ ((needsChunking p = false
         /\ MB wavSize <= TARGET_SIZE_MB
         /\ chunks p = []
         /\ w' = mkWorld (requests w) (trace w ++ [EvConvert (wavPathOf (wavBase p))]))
        \/ (needsChunking p = true
            /\ TARGET_SIZE_MB < MB wavSize
            /\ splitIntoChunksM env (wavBase p) (p_duration p)
                                (initialChunkDuration (MB (format_size metadata)))
                                (mkWorld (requests w)
                                         (trace w ++ [EvConvert (wavPathOf (wavBase p))]))
               = (Ok (chunks p), w'))).
Proof.
  unfold processLargeAudio. intros H.
  destruct (probeAudio env) as [msg | metadata] eqn:Hprobe;
    [unfold external, bind, throw in H; discriminate |].
  unfold external at 1 in H. unfold bind at 1 in H. unfold ret at 1 in H.
  unfold bind at 1 in H. unfold emit at 1 in H.
  set (w1 := mkWorld _ _) in H.
  destruct (convertToWav env) as [msg | wavSize] eqn:Hconv;
    [unfold external, bind, throw in H; discriminate |].
  unfold external at 1 in H. unfold bind at 1 in H. unfold ret at 1 in H.
  unfold bind at 1 in H.
  set (getDuration := if Qeq_bool (durationOr0 metadata) 0 then _ else _) in H.
  assert (Hdur : forall d w2, getDuration w1 = (Ok d, w2) -> w2 = w1 /\ ~ d == 0).
  { intros d w2. unfold getDuration.
    destruct (Qeq_bool (durationOr0 metadata) 0) eqn:E0.
    - destruct (probeWav env) as [msg | wavMetadata];
        [unfold external, bind, throw; discriminate |].
      unfold external, bind, ret.
      destruct (Qeq_bool (durationOr0 wavMetadata) 0) eqn:E1;
        [unfold throw; discriminate |].
      intros Hd. inversion Hd; subst. split; [reflexivity |].
      now apply Qeq_bool_false.
    - unfold ret. intros Hd. inversion Hd; subst. split; [reflexivity |].
      now apply Qeq_bool_false. }
  destruct (getDuration w1) as [[durationSeconds | e] w2] eqn:Hget; [| discriminate].
  destruct (Hdur _ _ eq_refl) as [-> Hnz].
  exists metadata, wavSize. split; [reflexivity |]. split; [reflexivity |].
  destruct (Qle_bool (MB wavSize) TARGET_SIZE_MB) eqn:Hsize.
  - unfold ret in H. inversion H; subst. simpl.
    repeat split; auto. left. repeat split; auto.
    now apply Qle_bool_iff.
  - unfold bind at 1 in H.
    destruct (splitIntoChunksM env _ durationSeconds _ w1) as [[cs | e] w3] eqn:Hsplit;
      [| discriminate].
    unfold ret in H. inversion H; subst. simpl.
    repeat split; auto. right. repeat split; auto.
    apply Qnot_le_lt. intros Hle. apply Qle_bool_iff in Hle. congruence.
Qed.

(** When [processLargeAudio] resolves, the duration it reports is not 0 and
    it has sent no request.  Either the converted file is at most 24 MB and
    nothing was planned, or it is larger and the chunks are the plan of the
    whole reported duration, cut by the duration chosen from the size of
    the upload. *)
Theorem processLargeAudio_resolves
        (env : Env) (meetingId : nat) (w w' : World) (p : Processed) :
  processLargeAudio env meetingId w = (Ok p, w') ->
  ~ p_duration p == 0
  /\ requests w' = requests w
  /\ exists metadata,
      probeAudio env = inr metadata
      /\ if needsChunking p
         then TARGET_SIZE_MB < wavSizeMB p
              /\ Plan (p_duration p) (initialChunkDuration (MB (format_size metadata)))
                      0 0 (chunks p)
              /\ splitsOf (trace w')
                 = splitsOf (trace w) ++ [initialChunkDuration (MB (format_size metadata))]
         else wavSizeMB p <= TARGET_SIZE_MB
              /\ chunks p = []
              /\ splitsOf (trace w') = splitsOf (trace w).
Proof.
  intros H. apply processLargeAudio_cases in H.
  destruct H as [metadata [wavSize [Hprobe [_ [_ [Hmb [Hnz Hcase]]]]]]].
  split; [exact Hnz |].
  destruct Hcase as [[Hn [Hle [Hcs Hw]]] | [Hn [Hlt Hsplit]]]; rewrite Hn.
  - subst w'. split; [reflexivity |]. exists metadata. split; [exact Hprobe |].
    rewrite Hmb. repeat split; auto.
    simpl. rewrite splitsOf_app. apply app_nil_r.
  - apply splitIntoChunksM_ok in Hsplit. destruct Hsplit as [Hrun Hw]. subst w'.
    split; [reflexivity |]. exists metadata. split; [exact Hprobe |].
    rewrite Hmb. split; [exact Hlt |]. split.
    + apply splitLoop_sound in Hrun. destruct Hrun as [out [Hout Hplan]].
      simpl in Hout, Hplan. now subst out.
    + simpl. rewrite !splitsOf_app. simpl. now rewrite app_nil_r.
Qed.

Lemma processLargeAudio_resolves_witness :
  let r := processLargeAudio env_60MiB 7 world0 in
  let p := match fst r with Ok p => p | Throw _ => mkProcessed false "" 0 0 [] end in
  ~ p_duration p == 0
  /\ requests (snd r) = requests world0
  /\ exists metadata,
      probeAudio env_60MiB = inr metadata
      /\ if needsChunking p
         then TARGET_SIZE_MB < wavSizeMB p
              /\ Plan (p_duration p) (initialChunkDuration (MB (format_size metadata)))
                      0 0 (chunks p)
              /\ splitsOf (trace (snd r))
                 = splitsOf (trace world0)
                   ++ [initialChunkDuration (MB (format_size metadata))]
         else wavSizeMB p <= TARGET_SIZE_MB
              /\ chunks p = []
              /\ splitsOf (trace (snd r)) = splitsOf (trace world0).
Proof.
  intros r p.
  apply (processLargeAudio_resolves env_60MiB 7 world0 (snd r) p).
  vm_compute. reflexivity.
Defined.

(** ** The words of the merged text *)

Lemma words_concat_fullText (rs : list ChunkResult) :
  words (List.concat (map (fun r => tr_text (transcription r) ++ [SPACE]) rs))
  = List.concat (map (fun r => words (tr_text (transcription r))) rs).
Proof.
  induction rs as [| r rs IH]; [reflexivity |].
  simpl. rewrite <- app_assoc. simpl app.
  rewrite words_app_ws by reflexivity. now rewrite IH.
Qed.

(** The merged text is made of the white-space separated words of the
    chunk texts, chunk after chunk and in their order, with one space
    between two words and nothing before the first or after the last: the
    merge drops no word, repeats none, and joins no two words across a
    chunk boundary.  Normalising the merged text again leaves it as it is. *)
Theorem mergeTranscripts_words (rs : list ChunkResult) :
  tr_text (mergeTranscripts rs)
  = unwords (List.concat (map (fun r => words (tr_text (transcription r))) rs))
  /\ words (tr_text (mergeTranscripts rs))
     = List.concat (map (fun r => words (tr_text (transcription r))) rs)
  /\ collapseSpaces (trim (tr_text (mergeTranscripts rs))) = tr_text (mergeTranscripts rs).
Proof.
  assert (Htext : tr_text (mergeTranscripts rs)
                  = unwords (List.concat
                               (map (fun r => words (tr_text (transcription r))) rs))).
  { unfold mergeTranscripts. simpl tr_text.
    rewrite fold_mergeStep_text. simpl fullText. rewrite app_nil_l.
    rewrite normalize_words. now rewrite words_concat_fullText. }
  assert (Hwords : Forall isWord
                     (List.concat (map (fun r => words (tr_text (transcription r))) rs))).
  { rewrite <- words_concat_fullText. apply words_are_words. }
  split; [exact Htext |].
  split.
  - rewrite Htext. now apply words_unwords.
  - rewrite normalize_words. rewrite Htext at 1.
    rewrite words_unwords by exact Hwords. now rewrite Htext.
Qed.

(** ** Plans made by the pipeline *)

Lemma chunkingPath_splits env meetingId progressCallback w :
  exists planned,
    splitsOf (trace (snd (chunkingPath env meetingId progressCallback w)))
    = splitsOf (trace w) ++ planned
    /\ (planned = []
        \/ exists metadata,
            probeAudio env = inr metadata
            /\ (planned = [initialChunkDuration (MB (format_size metadata))]
                \/ planned = [initialChunkDuration (MB (format_size metadata)); 300])).
Proof.
  unfold chunkingPath. unfold bind at 1. rewrite report_run.
  set (w0 := mkWorld _ _).
  assert (H0 : splitsOf (trace w0) = splitsOf (trace w)).
  { unfold w0. simpl. rewrite splitsOf_app.
    unfold progressEvents. destruct progressCallback; apply app_nil_r. }
  unfold bind at 1.
  destruct (processLargeAudio env (meetingIdOrNow env meetingId) w0)
    as [[processed | e] w1] eqn:Hp.
  - apply processLargeAudio_cases in Hp.
    destruct Hp as [metadata [wavSize [Hprobe [_ [_ [_ [_ Hcase]]]]]]].
    destruct Hcase as [[Hn [_ [_ Hw]]] | [Hn [_ Hsplit]]]; rewrite Hn;
      cbn [negb].
    + exists []. split; [| now left].
      rewrite app_nil_r, <- H0.
      assert (H1 : splitsOf (trace w1) = splitsOf (trace w0)).
      { subst w1. simpl. rewrite splitsOf_app. apply app_nil_r. }
      rewrite <- H1.
      apply (plansNothing_bind (transcribeSingleFile env (wavPathOf (wavBase processed)))).
      * apply plansNothing_transcribeSingleFile.
      * intros t. apply plansNothing_bind;
          [apply plansNothing_emit; discriminate | intros _; apply plansNothing_ret].
    + apply splitIntoChunksM_ok in Hsplit. destruct Hsplit as [_ Hw].
      assert (H1 : splitsOf (trace w1)
                   = splitsOf (trace w)
                     ++ [initialChunkDuration (MB (format_size metadata))]).
      { subst w1. cbn [trace]. rewrite !splitsOf_app, H0. simpl. now rewrite app_nil_r. }
      pose proof (driveWithRechunk_splits env processed progressCallback w1) as Hd.
      unfold bind at 1.
      destruct (driveWithRechunk env processed progressCallback w1)
        as [[p | e] w2]; cbn [snd] in Hd.
      * assert (H2 : plansNothing
                       (report progressCallback
                               (PhaseProgress "merging" "Merging transcripts...") ;;;
                        (cleanupChunks (map path (snd p)) ;;;
                         (emit (EvUnlink (wavPathOf (wavBase processed))) ;;;
                          ret (mergeTranscripts (fst p)))))%js).
        { apply plansNothing_bind; [apply plansNothing_report | intros _].
          apply plansNothing_bind; [apply plansNothing_cleanupChunks | intros _].
          apply plansNothing_bind;
            [apply plansNothing_emit; discriminate | intros _; apply plansNothing_ret]. }
        cbv zeta. rewrite (H2 w2), Hd, H1, <- app_assoc.
        eexists. split; [reflexivity |]. right. exists metadata. split; [exact Hprobe |].
        destruct (fst (transcribeChunks env (chunks processed) progressCallback w1))
          as [rs | e]; [now left |].
        destruct (String.eqb (message e) RECHUNK_NEEDED); [now right | now left].
      * cbn [snd]. rewrite Hd, H1, <- app_assoc.
        eexists. split; [reflexivity |]. right. exists metadata. split; [exact Hprobe |].
        destruct (fst (transcribeChunks env (chunks processed) progressCallback w1))
          as [rs | e']; [now left |].
        destruct (String.eqb (message e') RECHUNK_NEEDED); [now right | now left].
  - pose proof (processLargeAudio_splits env (meetingIdOrNow env meetingId) w0) as Hs.
    rewrite Hp in Hs. cbn [snd] in Hs |- *.
    destruct Hs as [planned [Hs Hor]]. exists planned. rewrite Hs, H0.
    split; [reflexivity |].
    destruct Hor as [-> | [metadata [Hprobe ->]]]; [now left |].
    right. exists metadata. split; [exact Hprobe | now left].
Qed.

(** Whatever the outside world answers, one call of [transcribeWithRetry]
    cuts the recording at most twice: not at all, or once with the chunk
    duration chosen from the size of the upload, or a second time with
    300 s.  There is no third plan. *)
Theorem transcribeWithRetry_plans_at_most_twice
        (env : Env) (audioPath : string) (meetingId : option nat)
        (progressCallback : bool) (w : World) :
  exists planned,
    splitsOf (trace (snd (transcribeWithRetry env audioPath meetingId progressCallback w)))
    = splitsOf (trace w) ++ planned
    /\ (planned = []
        \/ exists metadata,
            probeAudio env = inr metadata
            /\ (planned = [initialChunkDuration (MB (format_size metadata))]
                \/ planned = [initialChunkDuration (MB (format_size metadata)); 300])).
Proof.
  assert (Hnone : forall w', splitsOf (trace w') = splitsOf (trace w) ->
            exists planned,
              splitsOf (trace w') = splitsOf (trace w) ++ planned
              /\ (planned = []
                  \/ exists metadata,
                      probeAudio env = inr metadata
                      /\ (planned = [initialChunkDuration (MB (format_size metadata))]
                          \/ planned = [initialChunkDuration (MB (format_size metadata));
                                        300]))).
  { intros w' H. exists []. split; [now rewrite app_nil_r | now left]. }
  unfold transcribeWithRetry.
  destruct (apiKeyConfigured env); cbn [negb]; [| now apply Hnone].
  destruct (statAudio env) as [msg | size]; [now apply Hnone |].
  unfold external at 1. unfold bind at 1. unfold ret at 1.
  destruct (Qle_bool (MB size) SIZE_THRESHOLD_MB); [| apply chunkingPath_splits].
  unfold bind at 1. unfold try_.
  pose proof (plansNothing_transcribeSingleFile env audioPath w) as H1.
  destruct (transcribeSingleFile env audioPath w) as [[t | e] w1]; cbn [snd] in H1.
  - now apply Hnone.
  - destruct (negb (String.eqb (message e) PAYLOAD_TOO_LARGE)); [now apply Hnone |].
    rewrite <- H1. apply chunkingPath_splits.
Qed.

(** ** File names *)

Lemma append_inj_l (s a b : string) : (s ++ a = s ++ b -> a = b)%string.
Proof.
  induction s as [| c s IH]; simpl; intros H; [exact H |].
  inversion H. auto.
Qed.

Lemma length_append (a b : string) :
  String.length (a ++ b) = (String.length a + String.length b)%nat.
Proof.
  induction a as [| c a IH]; simpl; [reflexivity | now rewrite IH].
Qed.

Lemma append_inj_r (s a b : string) : (a ++ s = b ++ s -> a = b)%string.
Proof.
  revert b. induction a as [| c a IH]; intros [| c' b] H; simpl in H.
  - reflexivity.
  - apply (f_equal String.length) in H. simpl in H. rewrite length_append in H. lia.
  - apply (f_equal String.length) in H. simpl in H. rewrite length_append in H. lia.
  - inversion H. f_equal. auto.
Qed.

Lemma showNat_inj (n m : nat) : Js.showNat n = Js.showNat m -> n = m.
Proof.
  unfold Js.showNat. intros H.
  assert (Hnil : forall k, Nat.to_uint k <> Decimal.Nil).
  { intros k. rewrite <- (Unsigned.of_to k) at 1. rewrite Unsigned.to_of.
    apply DecimalFacts.unorm_nonnil. }
  apply Unsigned.to_uint_inj.
  pose proof (NilZero.usu _ (Hnil n)) as Hn.
  pose proof (NilZero.usu _ (Hnil m)) as Hm.
  rewrite H in Hn. congruence.
Qed.

Lemma chunkFilenameOf_inj base i j :
  chunkFilenameOf base i = chunkFilenameOf base j -> i = j.
Proof.
  unfold chunkFilenameOf. intros H.
  apply append_inj_l in H. apply (append_inj_l "_chunk") in H.
  apply append_inj_r in H. now apply showNat_inj.
Qed.

Lemma chunk_path_not_wav base i :
  (CHUNK_DIR ++ chunkFilenameOf base i)%string <> wavPathOf base.
Proof.
  unfold chunkFilenameOf, wavPathOf. intros H.
  apply append_inj_l in H. apply append_inj_l in H.
  simpl in H. inversion H.
Qed.

(** The entries a run of the loop adds are numbered on from the number of
    entries it starts with, and each is named after its number. *)
Lemma splitLoop_names extractRange base D C :
  forall fuel chunks s result,
    splitLoop extractRange base D C fuel chunks s = Some (Ok result) ->
    exists out,
      result = chunks ++ out
      /\ forall k c, nth_error out k = Some c ->
                     index c = (List.length chunks + k)%nat
                     /\ filename c = chunkFilenameOf base (List.length chunks + k)
                     /\ path c = (CHUNK_DIR ++ filename c)%string.
Proof.
  induction fuel as [| fuel IH]; intros chunks s result Hrun; simpl in Hrun.
  - destruct (Qlt_le_dec s D); [discriminate |].
    inversion Hrun; subst. exists []. split; [now rewrite app_nil_r |].
    intros [| k] c H; discriminate.
  - destruct (Qlt_le_dec s D) as [Hlt | Hge].
    + destruct (extractRange _ _) as [msg | size]; [discriminate |].
      apply IH in Hrun. destruct Hrun as [out [Hres Hnames]].
      match type of Hres with
      | _ = (chunks ++ [?c]) ++ _ => exists (c :: out)
      end.
      split; [now rewrite Hres, <- app_assoc |].
      intros [| k] c H.
      * simpl in H. inversion H; subst c. cbn [index filename path].
        rewrite Nat.add_0_r. repeat split.
      * simpl in H. apply Hnames in H. rewrite length_app in H. simpl in H.
        replace (List.length chunks + 1 + k)%nat
          with (List.length chunks + S k)%nat in H by lia.
        exact H.
    + inversion Hrun; subst. exists []. split; [now rewrite app_nil_r |].
      intros [| k] c H; discriminate.
Qed.

Lemma splitIntoChunks_names extractRange base D C fuel chunks :
  splitIntoChunks extractRange base D C fuel = Some (Ok chunks) ->
  forall k c, nth_error chunks k = Some c ->
              index c = k
              /\ filename c = chunkFilenameOf base k
              /\ path c = (CHUNK_DIR ++ filename c)%string.
Proof.
  intros Hrun. apply splitLoop_names in Hrun.
  destruct Hrun as [out [Hres Hnames]]. simpl in Hres. subst out.
  intros k c H. now apply Hnames in H.
Qed.

Lemma splitIntoChunks_no_wav extractRange base D C fuel chunks :
  splitIntoChunks extractRange base D C fuel = Some (Ok chunks) ->
  ~ In (wavPathOf base) (map path chunks).
Proof.
  intros Hrun Hin. apply in_map_iff in Hin. destruct Hin as [c [Hpath Hc]].
  apply In_nth_error in Hc. destruct Hc as [k Hk].
  destruct (splitIntoChunks_names _ _ _ _ _ _ Hrun k c Hk) as [_ [Hf Hp]].
  rewrite Hp, Hf in Hpath. now apply chunk_path_not_wav in Hpath.
Qed.

(** Every entry [splitIntoChunks] returns carries its position in the list
    as [index], and its file is [<base>_chunk<index>.wav] in the chunk
    directory.  No two entries share a file, and none is the converted
    recording [<base>.wav] the chunks are cut from. *)
Theorem splitIntoChunks_files
        (extractRange : Q -> Q -> string + Z) (base : string) (D C : Q)
        (fuel : nat) (chunks : list Chunk) :
  splitIntoChunks extractRange base D C fuel = Some (Ok chunks) ->
  (forall k c, nth_error chunks k = Some c ->
               index c = k
               /\ filename c = (base ++ "_chunk" ++ Js.showNat k ++ ".wav")%string
               /\ path c = (CHUNK_DIR ++ filename c)%string)
  /\ NoDup (map path chunks)
  /\ ~ In (wavPathOf base) (map path chunks).
Proof.
  intros Hrun.
  pose proof (splitIntoChunks_names _ _ _ _ _ _ Hrun) as Hnames.
  split; [exact Hnames |].
  split; [| now apply splitIntoChunks_no_wav in Hrun].
  apply NoDup_nth_error. intros i j Hi Heq.
  rewrite length_map in Hi. rewrite !nth_error_map in Heq.
  destruct (nth_error chunks i) as [ci |] eqn:Hci;
    [| apply nth_error_None in Hci; lia].
  destruct (nth_error chunks j) as [cj |] eqn:Hcj; [| discriminate].
  simpl in Heq. inversion Heq as [Hpath].
  destruct (Hnames i ci Hci) as [_ [Hfi Hpi]].
  destruct (Hnames j cj Hcj) as [_ [Hfj Hpj]].
  rewrite Hpi, Hpj, Hfi, Hfj in Hpath.
  apply append_inj_l in Hpath. now apply chunkFilenameOf_inj in Hpath.
Qed.

Lemma splitIntoChunks_files_witness :
  let ex := fun _ _ : Q => inr (MiB * 20)%Z : string + Z in
  let chunks := match splitIntoChunks ex "meeting-7-converted" 1500 600 3 with
                | Some (Ok cs) => cs
                | _ => []
                end in
  (forall k c, nth_error chunks k = Some c ->
               index c = k
               /\ filename c
                  = ("meeting-7-converted" ++ "_chunk" ++ Js.showNat k ++ ".wav")%string
               /\ path c = (CHUNK_DIR ++ filename c)%string)
  /\ NoDup (map path chunks)
  /\ ~ In (wavPathOf "meeting-7-converted") (map path chunks).
Proof.
  intros ex chunks.
  apply (splitIntoChunks_files ex "meeting-7-converted" 1500 600 3 chunks).
  vm_compute. reflexivity.
Defined.

(** ** Temporary files *)

Lemma unlinksOf_app (a b : list Event) : unlinksOf (a ++ b) = unlinksOf a ++ unlinksOf b.
Proof.
  induction a as [| e a IH]; [reflexivity |].
  destruct e; simpl; now rewrite IH.
Qed.

Lemma unlinksNothing_ret {A} (a : A) : unlinksNothing (ret a).
Proof. intros w. reflexivity. Qed.

Lemma unlinksNothing_throw {A} msg : unlinksNothing (@throw A msg).
Proof. intros w. reflexivity. Qed.

Lemma unlinksNothing_rethrow {A} e : unlinksNothing (@rethrow A e).
Proof. intros w. reflexivity. Qed.

Lemma unlinksNothing_external {A} prefix (r : string + A) :
  unlinksNothing (external prefix r).
Proof.
  destruct r; [apply unlinksNothing_throw | apply unlinksNothing_ret].
Qed.

Lemma unlinksNothing_bind {A B} (m : M A) (k : A -> M B) :
  unlinksNothing m -> (forall a, unlinksNothing (k a)) -> unlinksNothing (bind m k).
Proof.
  intros Hm Hk w. unfold bind. specialize (Hm w).
  destruct (m w) as [[a | e] w1]; simpl in Hm.
  - now rewrite Hk.
  - exact Hm.
Qed.

Lemma unlinksNothing_try {A} (m : M A) : unlinksNothing m -> unlinksNothing (try_ m).
Proof.
  intros Hm w. unfold try_. specialize (Hm w). now destruct (m w).
Qed.

Lemma unlinksNothing_emit e :
  (forall p, e <> EvUnlink p) -> unlinksNothing (emit e).
Proof.
  intros He w. unfold emit. simpl. rewrite unlinksOf_app.
  destruct e; simpl; try apply app_nil_r. now destruct (He path0).
Qed.

Lemma unlinksNothing_report progressCallback p :
  unlinksNothing (report progressCallback p).
Proof.
  unfold report. destruct progressCallback; [| apply unlinksNothing_ret].
  apply unlinksNothing_emit. discriminate.
Qed.

Lemma unlinksNothing_transcribeSingleFile env p :
  unlinksNothing (transcribeSingleFile env p).
Proof.
  intros w. unfold transcribeSingleFile.
  destruct (apiKeyConfigured env); [| reflexivity]. simpl.
  destruct (stt env (requests w)); simpl; rewrite unlinksOf_app; apply app_nil_r.
Qed.

Lemma unlinksNothing_retryLoop env c : forall remaining attempt,
  unlinksNothing (retryLoop env c remaining attempt).
Proof.
  induction remaining as [| remaining IH]; intros attempt; simpl.
  - apply unlinksNothing_ret.
  - apply unlinksNothing_bind; [apply unlinksNothing_emit; discriminate | intros _].
    apply unlinksNothing_bind;
      [apply unlinksNothing_try, unlinksNothing_transcribeSingleFile |].
    intros [t | e]; [apply unlinksNothing_ret |].
    destruct (String.eqb _ _); [apply unlinksNothing_ret | apply IH].
Qed.

Lemma unlinksNothing_chunkLoop env progressCallback total : forall rest i results,
  unlinksNothing (chunkLoop env progressCallback total rest i results).
Proof.
  induction rest as [| c rest IH]; intros i results.
  - apply unlinksNothing_ret.
  - rewrite chunkLoop_cons.
    apply unlinksNothing_bind; [apply unlinksNothing_report | intros _].
    apply unlinksNothing_bind;
      [apply unlinksNothing_try, unlinksNothing_transcribeSingleFile |].
    intros [t | e]; [apply IH |].
    destruct (String.eqb _ _); [apply unlinksNothing_ret |].
    apply unlinksNothing_bind; [apply unlinksNothing_retryLoop |].
    intros [t | |]; [apply IH | apply unlinksNothing_ret | apply unlinksNothing_throw].
Qed.

Lemma unlinksNothing_transcribeChunks env chunks progressCallback :
  unlinksNothing (transcribeChunks env chunks progressCallback).
Proof.
  unfold transcribeChunks.
  apply unlinksNothing_bind; [apply unlinksNothing_chunkLoop |].
  intros [rs flag]. simpl.
  destruct flag; [apply unlinksNothing_throw | apply unlinksNothing_ret].
Qed.

Lemma unlinksNothing_splitIntoChunksM env base D C :
  unlinksNothing (splitIntoChunksM env base D C).
Proof.
  unfold splitIntoChunksM.
  apply unlinksNothing_bind; [apply unlinksNothing_emit; discriminate | intros _].
  destruct (splitIntoChunks _ _ _ _ _) as [[cs | e] |];
    [apply unlinksNothing_ret | apply unlinksNothing_rethrow | apply unlinksNothing_throw].
Qed.

Lemma unlinksNothing_processLargeAudio env meetingId :
  unlinksNothing (processLargeAudio env meetingId).
Proof.
  unfold processLargeAudio.
  apply unlinksNothing_bind; [apply unlinksNothing_external | intros metadata].
  cbv zeta.
  apply unlinksNothing_bind; [apply unlinksNothing_emit; discriminate | intros _].
  apply unlinksNothing_bind; [apply unlinksNothing_external | intros wavSize].
  apply unlinksNothing_bind.
  - destruct (Qeq_bool (durationOr0 metadata) 0); [| apply unlinksNothing_ret].
    apply unlinksNothing_bind; [apply unlinksNothing_external | intros wavMetadata].
    destruct (Qeq_bool (durationOr0 wavMetadata) 0);
      [apply unlinksNothing_throw | apply unlinksNothing_ret].
  - intros durationSeconds.
    destruct (Qle_bool (MB wavSize) TARGET_SIZE_MB); [apply unlinksNothing_ret |].
    apply unlinksNothing_bind; [apply unlinksNothing_splitIntoChunksM |].
    intros cs. apply unlinksNothing_ret.
Qed.

(** [cleanupChunks] deletes the files it is given, in order, and resolves. *)
Lemma cleanupChunks_run paths : forall w,
  cleanupChunks paths w
  = (Ok tt, mkWorld (requests w) (trace w ++ map EvUnlink paths)).
Proof.
  induction paths as [| p paths IH]; intros w.
  - simpl. unfold ret. rewrite app_nil_r. now destruct w.
  - simpl. unfold bind, emit. rewrite IH. simpl. now rewrite <- app_assoc.
Qed.

Lemma unlinksOf_unlinks paths : unlinksOf (map EvUnlink paths) = paths.
Proof.
  induction paths as [| p paths IH]; simpl; [reflexivity | now rewrite IH].
Qed.

(** What [driveWithRechunk] deletes: nothing, or the files of the first
    plan before it plans again; and the plan its results belong to. *)
Lemma driveWithRechunk_unlinks env processed progressCallback w o w' :
  driveWithRechunk env processed progressCallback w = (o, w') ->
  exists removed,
    unlinksOf (trace w') = unlinksOf (trace w) ++ removed
    /\ (removed = [] \/ removed = map path (chunks processed))
    /\ match o with
       | Ok p =>
           snd p = chunks processed
           \/ exists fuel,
               splitIntoChunks (extractRange env) (wavBase processed)
                               (p_duration processed) 300 fuel
               = Some (Ok (snd p))
       | Throw _ => True
       end.
Proof.
  unfold driveWithRechunk. unfold bind at 1. unfold try_.
  pose proof (unlinksNothing_transcribeChunks env (chunks processed) progressCallback w)
    as H1.
  destruct (transcribeChunks env (chunks processed) progressCallback w)
    as [[rs | e] w1]; cbn [snd] in H1.
  - unfold ret. intros H. inversion H; subst. exists [].
    rewrite app_nil_r. repeat split; auto.
  - destruct (String.eqb (message e) RECHUNK_NEEDED).
    + unfold bind at 1. rewrite report_run.
      set (w2 := mkWorld _ _).
      assert (H2 : unlinksOf (trace w2) = unlinksOf (trace w)).
      { unfold w2. cbn [trace]. rewrite unlinksOf_app, H1.
        unfold progressEvents. destruct progressCallback; apply app_nil_r. }
      unfold bind at 1. rewrite cleanupChunks_run.
      set (w3 := mkWorld _ _).
      assert (H3 : unlinksOf (trace w3)
                   = unlinksOf (trace w) ++ map path (chunks processed)).
      { unfold w3. cbn [trace]. now rewrite unlinksOf_app, unlinksOf_unlinks, H2. }
      unfold bind at 1. unfold rechunkWithSmallerSize.
      pose proof (unlinksNothing_splitIntoChunksM env (wavBase processed)
                    (p_duration processed) 300 w3) as H4.
      destruct (splitIntoChunksM env (wavBase processed) (p_duration processed) 300 w3)
        as [[smaller | e4] w4] eqn:Hsplit; cbn [snd] in H4.
      * apply splitIntoChunksM_ok in Hsplit. destruct Hsplit as [Hrun _].
        unfold bind at 1.
        pose proof (unlinksNothing_transcribeChunks env smaller progressCallback w4)
          as H5.
        destruct (transcribeChunks env smaller progressCallback w4)
          as [[rs2 | e5] w5]; cbn [snd] in H5;
          unfold ret; intros H; inversion H; subst;
          exists (map path (chunks processed)); rewrite H5, H4, H3;
          repeat split; auto.
        right. eexists. exact Hrun.
      * intros H. inversion H; subst.
        exists (map path (chunks processed)). rewrite H4, H3. repeat split; auto.
    + unfold rethrow. intros H. inversion H; subst. exists [].
      rewrite app_nil_r. repeat split; auto.
Qed.

Lemma chunkingPath_unlinks env meetingId progressCallback w o w' :
  chunkingPath env meetingId progressCallback w = (o, w') ->
  exists removed,
    unlinksOf (trace w') = unlinksOf (trace w) ++ removed
    /\ match o with
       | Ok _ =>
           exists chunkFiles,
             removed
             = chunkFiles
               ++ [wavPathOf ("meeting-" ++ Js.showNat (meetingIdOrNow env meetingId)
                              ++ "-converted")%string]
             /\ ~ In (wavPathOf ("meeting-" ++ Js.showNat (meetingIdOrNow env meetingId)
                                 ++ "-converted")%string) chunkFiles
       | Throw _ =>
           ~ In (wavPathOf ("meeting-" ++ Js.showNat (meetingIdOrNow env meetingId)
                            ++ "-converted")%string) removed
       end.
Proof.
  set (wav := wavPathOf ("meeting-" ++ Js.showNat (meetingIdOrNow env meetingId)
                         ++ "-converted")%string).
  unfold chunkingPath. unfold bind at 1. rewrite report_run.
  set (w0 := mkWorld _ _).
  assert (H0 : unlinksOf (trace w0) = unlinksOf (trace w)).
  { unfold w0. cbn [trace]. rewrite unlinksOf_app.
    unfold progressEvents. destruct progressCallback; apply app_nil_r. }
  unfold bind at 1.
  pose proof (unlinksNothing_processLargeAudio env (meetingIdOrNow env meetingId) w0)
    as Hq.
  destruct (processLargeAudio env (meetingIdOrNow env meetingId) w0)
    as [[processed | e] w1] eqn:Hp; cbn [snd] in Hq.
  2:{ intros H. inversion H; subst. exists []. rewrite app_nil_r, Hq, H0.
      split; [reflexivity | apply in_nil]. }
  apply processLargeAudio_cases in Hp.
  destruct Hp as [metadata [wavSize [_ [_ [Hbase [_ [_ Hcase]]]]]]].
  assert (Hwav : wavPathOf (wavBase processed) = wav) by (unfold wav; now rewrite Hbase).
  destruct Hcase as [[Hn _] | [Hn [_ Hsplit]]]; rewrite Hn; cbn [negb].
  - unfold bind at 1.
    pose proof (unlinksNothing_transcribeSingleFile env
                  (wavPathOf (wavBase processed)) w1) as H2.
    destruct (transcribeSingleFile env (wavPathOf (wavBase processed)) w1)
      as [[t | e] w2]; cbn [snd] in H2.
    + unfold bind, emit, ret. intros H. inversion H; subst o w'. cbn [trace].
      exists [wav]. rewrite unlinksOf_app, H2, Hq, H0, Hwav.
      split; [reflexivity |]. exists []. split; [reflexivity | apply in_nil].
    + intros H. inversion H; subst. exists []. rewrite app_nil_r, H2, Hq, H0.
      split; [reflexivity | apply in_nil].
  - apply splitIntoChunksM_ok in Hsplit. destruct Hsplit as [Hrun1 _].
    unfold bind at 1.
    destruct (driveWithRechunk env processed progressCallback w1)
      as [[p | e] w2] eqn:Hdrive;
      apply driveWithRechunk_unlinks in Hdrive;
      destruct Hdrive as [removed [Hrem [Hcases Hplan]]].
    + cbv zeta. unfold bind at 1. rewrite report_run.
      unfold bind at 1. rewrite cleanupChunks_run.
      unfold bind, emit, ret. intros H. inversion H; subst o w'. cbn [trace requests].
      exists ((removed ++ map path (snd p)) ++ [wav]).
      split.
      * rewrite !unlinksOf_app, unlinksOf_unlinks, Hrem, Hq, H0, Hwav.
        assert (Hprog : unlinksOf (progressEvents progressCallback
                                     (PhaseProgress "merging" "Merging transcripts..."))
                        = []) by (destruct progressCallback; reflexivity).
        rewrite Hprog, app_nil_r. simpl. now rewrite <- !app_assoc.
      * exists (removed ++ map path (snd p)). split; [reflexivity |].
        rewrite <- Hwav. intros Hin. apply in_app_or in Hin.
        destruct Hin as [Hin | Hin].
        -- destruct Hcases as [-> | ->]; [exact Hin |].
           now apply (splitIntoChunks_no_wav _ _ _ _ _ _ Hrun1).
        -- destruct Hplan as [Hsame | [fuel Hrun2]].
           ++ rewrite Hsame in Hin. now apply (splitIntoChunks_no_wav _ _ _ _ _ _ Hrun1).
           ++ now apply (splitIntoChunks_no_wav _ _ _ _ _ _ Hrun2).
    + intros H. inversion H; subst o w'. exists removed. rewrite Hrem, Hq, H0.
      split; [reflexivity |].
      rewrite <- Hwav. destruct Hcases as [-> | ->]; [apply in_nil |].
      now apply (splitIntoChunks_no_wav _ _ _ _ _ _ Hrun1).
Qed.

(** The chunking part of [transcribeWithRetry] converts the upload to
    [meeting-<id>-converted.wav].  When it resolves, the last file it
    deletes is that WAV, after chunk files only; when it rejects, the WAV
    is not among the files it deleted: it stays on disk. *)
Theorem chunkingPath_temporary_files
        (env : Env) (meetingId : option nat) (progressCallback : bool) (w : World) :
  let wav := wavPathOf ("meeting-" ++ Js.showNat (meetingIdOrNow env meetingId)
                        ++ "-converted")%string in
  let r := chunkingPath env meetingId progressCallback w in
  exists removed,
    unlinksOf (trace (snd r)) = unlinksOf (trace w) ++ removed
    /\ match fst r with
       | Ok _ => exists chunkFiles, removed = chunkFiles ++ [wav] /\ ~ In wav chunkFiles
       | Throw _ => ~ In wav removed
       end.
Proof.
  intros wav r. unfold r.
  destruct (chunkingPath env meetingId progressCallback w) as [o w'] eqn:H.
  apply chunkingPath_unlinks in H. exact H.
Qed.

(** ** The row of the meeting *)

Section RowFacts.

Variable sv : Services.
Variable meetingId : nat.
Variable PROCESSING_TIMEOUT : Z.








Variable m : Meeting.

Lemma updateMeeting_row d row :
  d meetingId = Some m -> updateMeeting d row meetingId meetingId = Some row.
Proof.
  intros H. unfold updateMeeting. now rewrite Nat.eqb_refl, H.
Qed.

Lemma recordFailure_row d m0 e :
  d meetingId = Some m0 ->
  title m0 = title m -> date m0 = date m -> audio_path m0 = audio_path m ->
  recordFailure meetingId d e meetingId = Some (failureRow m e).
Proof.
  intros H Ht Hd Ha. unfold recordFailure, getMeetingById. rewrite H.
  unfold updateMeeting. rewrite Nat.eqb_refl, H.
  unfold failureRow. now rewrite Ht, Hd, Ha.
Qed.

Lemma orchInv_tick s t :
  orchInv sv meetingId PROCESSING_TIMEOUT m s ->
  orchInv sv meetingId PROCESSING_TIMEOUT m (tick sv meetingId PROCESSING_TIMEOUT s t).
Proof.
  unfold orchInv. destruct s as [d i o]. cbn [outer inner db].
  destruct t; cbn [tick outer inner db].
  - destruct i as [p | | e]; cbn [outer inner db]; [| tauto | tauto].
    destruct o as [| | e0].
    + destruct p; cbn [resume]; intros H.
      * destruct (transcribed sv) as [t | e]; cbn [settle outer inner db]; [exact H |].
        right. split; [reflexivity |]. now apply (recordFailure_row d m).
      * destruct (saveTranscript sv); cbn [settle outer inner db]; [exact H |].
        right. split; [reflexivity |]. now apply (recordFailure_row d m).
      * destruct (analyzeMeeting sv); cbn [settle outer inner db]; [| exact H].
        right. split; [reflexivity |]. now apply (recordFailure_row d m).
      * destruct (saveSummary sv) as [msg | summaryPath].
        { cbn [settle outer inner db]. right. split; [reflexivity |].
          now apply (recordFailure_row d m). }
        destruct (saveTranscript sv) as [timestamp |] eqn:Hts.
        2:{ cbn [settle outer inner db]. right. split; [reflexivity |].
            now apply (recordFailure_row d m). }
        unfold recordSuccess, getMeetingById. rewrite H.
        destruct (transcribed sv) as [t | e] eqn:Ht.
        2:{ cbn [settle outer inner db]. right. split; [reflexivity |].
            now apply (recordFailure_row d m). }
        cbn [settle outer inner db].
        exists t, timestamp, summaryPath. repeat split; auto.
        now apply updateMeeting_row.
      * destruct H as [t [timestamp [summaryPath [Ht [Hts [Hsp Hrow]]]]]].
        destruct (buildSearchIndex sv); cbn [settle outer inner db].
        { split; [reflexivity |]. exists t, timestamp, summaryPath. auto. }
        right. split; [reflexivity |].
        now apply (recordFailure_row d (successRow meetingId m t timestamp summaryPath)).
    + intros [H _]. discriminate H.
    + intros [H | [H _]]; [| discriminate H].
      destruct (resume sv meetingId p d) as [i1 d1]. cbn [settle outer inner db].
      now left.
  - destruct o as [| | e0]; cbn [outer inner db]; [| tauto | tauto].
    intros _. now left.
Qed.

Lemma orchInv_run schedule : forall s,
  orchInv sv meetingId PROCESSING_TIMEOUT m s ->
  orchInv sv meetingId PROCESSING_TIMEOUT m
          (fold_left (tick sv meetingId PROCESSING_TIMEOUT) schedule s).
Proof.
  induction schedule as [| t schedule IH]; intros s H; [exact H |].
  simpl. apply IH. now apply orchInv_tick.
Qed.

End RowFacts.


(** When the promise of [processMeeting] is resolved, the row of the
    meeting holds the result: the floor of the transcript's duration, the
    path of the saved transcript, which is no error marker, and the path
    of the summary.  This holds however many further steps the event loop
    takes. *)
Theorem processMeeting_resolved_row
        (sv : Services) (meetingId : nat) (PROCESSING_TIMEOUT : Z)
        (d : Db) (m : Meeting) (schedule : list Tick) :
  d meetingId = Some m ->
  outer (processMeeting sv meetingId PROCESSING_TIMEOUT d schedule) = Resolved ->
  exists t timestamp summaryPath,
    transcribed sv = Ok t
    /\ saveTranscript sv = Some timestamp
    /\ saveSummary sv = inr summaryPath
    /\ db (processMeeting sv meetingId PROCESSING_TIMEOUT d schedule) meetingId
       = Some (successRow meetingId m t timestamp summaryPath)
    /\ isErrorSentinel (successRow meetingId m t timestamp summaryPath) = false.
Proof.
  intros Hrow Hres.
  pose proof (orchInv_run sv meetingId PROCESSING_TIMEOUT m schedule
                (mkOrch d (Suspended Transcribing) Pending) Hrow) as Hinv.
  fold (processMeeting sv meetingId PROCESSING_TIMEOUT d schedule) in Hinv.
  unfold orchInv in Hinv. rewrite Hres in Hinv.
  destruct Hinv as [_ [t [timestamp [summaryPath [Ht [Hts [Hsp Hdb]]]]]]].
  exists t, timestamp, summaryPath. repeat split; auto.
Qed.

Lemma processMeeting_resolved_row_witness :
  let m := mkMeeting "Weekly sync" "2025-01-01" None (Some "uploads/a.webm"%string)
                     None None in
  let schedule := [Resume; Resume; Resume; Resume; Resume; Timer] in
  exists t timestamp summaryPath,
    transcribed services_ok = Ok t
    /\ saveTranscript services_ok = Some timestamp
    /\ saveSummary services_ok = inr summaryPath
    /\ db (processMeeting services_ok 7 timeout7 db7 schedule) 7%nat
       = Some (successRow 7 m t timestamp summaryPath)
    /\ isErrorSentinel (successRow 7 m t timestamp summaryPath) = false.
Proof.
  intros m schedule.
  apply (processMeeting_resolved_row services_ok 7 timeout7 db7 m schedule).
  - reflexivity.
  - vm_compute. reflexivity.
Defined.

(** When the promise of [processMeeting] is rejected with anything but the
    time-out, the body itself has thrown that error, and the row of the
    meeting holds its marker [ERROR: <message>] with duration 0 and no
    summary; no later step of the event loop changes it. *)
Theorem processMeeting_failure_is_final
        (sv : Services) (meetingId : nat) (PROCESSING_TIMEOUT : Z)
        (d : Db) (m : Meeting) (schedule : list Tick) (e : Error) :
  d meetingId = Some m ->
  outer (processMeeting sv meetingId PROCESSING_TIMEOUT d schedule) = RejectedWith e ->
  e <> timeoutError meetingId PROCESSING_TIMEOUT ->
  inner (processMeeting sv meetingId PROCESSING_TIMEOUT d schedule) = Failed e
  /\ db (processMeeting sv meetingId PROCESSING_TIMEOUT d schedule) meetingId
     = Some (failureRow m e)
  /\ isErrorSentinel (failureRow m e) = true.
Proof.
  intros Hrow Hrej Hne.
  pose proof (orchInv_run sv meetingId PROCESSING_TIMEOUT m schedule
                (mkOrch d (Suspended Transcribing) Pending) Hrow) as Hinv.
  fold (processMeeting sv meetingId PROCESSING_TIMEOUT d schedule) in Hinv.
  unfold orchInv in Hinv. rewrite Hrej in Hinv.
  destruct Hinv as [Hinv | [Hin Hdb]]; [contradiction |].
  split; [exact Hin |]. split; [exact Hdb |].
  destruct e as [msg]. now destruct msg.
Qed.

Lemma processMeeting_failure_is_final_witness :
  let m := mkMeeting "Weekly sync" "2025-01-01" None (Some "uploads/a.webm"%string)
                     None None in
  let schedule := [Resume; Timer; Resume] in
  let e := mkError RECHUNK_NEEDED in
  inner (processMeeting services_413_twice 7 timeout7 db7 schedule) = Failed e
  /\ db (processMeeting services_413_twice 7 timeout7 db7 schedule) 7%nat
     = Some (failureRow m e)
  /\ isErrorSentinel (failureRow m e) = true.
Proof.
  intros m schedule e.
  apply (processMeeting_failure_is_final services_413_twice 7 timeout7 db7 m schedule e).
  - reflexivity.
  - vm_compute. reflexivity.
  - intros H. vm_compute in H. discriminate H.
Defined.

(** ** Tokens *)

Lemma splitFrom_word_chars : forall s inRun cur,
  Forall (fun c => isWordChar c || isWhiteSpace c = true) s ->
  Forall (fun c => isWordChar c = true) cur ->
  Forall (Forall (fun c => isWordChar c = true)) (splitFrom inRun cur s).
Proof.
  induction s as [| c s IH]; intros inRun cur Hs Hcur; simpl.
  - constructor; [exact Hcur | constructor].
  - inversion Hs as [| ? ? Hc Hs']; subst.
    destruct (isWhiteSpace c) eqn:Hws.
    + destruct inRun; [now apply IH |].
      constructor; [exact Hcur |]. apply IH; [exact Hs' | constructor].
    + apply IH; [exact Hs' |].
      apply Forall_app. split; [exact Hcur |].
      constructor; [| constructor].
      cbv beta in Hc. rewrite ?Hws, orb_false_r in Hc. exact Hc.
Qed.

Lemma replacePunctuation_chars s :
  Forall (fun c => isWordChar c || isWhiteSpace c = true) (replacePunctuation s).
Proof.
  unfold replacePunctuation. apply Forall_forall. intros c Hin.
  apply in_map_iff in Hin. destruct Hin as [c0 [Hc _]].
  destruct (isWordChar c0 || isWhiteSpace c0) eqn:E; subst c; [exact E | reflexivity].
Qed.

(** Every token [tokenize] returns has at least three code units, consists
    of the letters A to Z and a to z, the digits and the underscore only,
    and is no stop word: a word with any other character in it is cut at
    that character. *)
Theorem tokenize_tokens (toLowerCase : jsstring -> jsstring) (text token : jsstring) :
  In token (tokenize toLowerCase text) ->
  (3 <= List.length token)%nat
  /\ Forall (fun c => isWordChar c = true) token
  /\ isStopWord token = false.
Proof.
  unfold tokenize. destruct text as [| c0 text0]; [intros [] |].
  set (text := c0 :: text0). intros Hin.
  apply filter_In in Hin. destruct Hin as [Hin Hstop].
  apply filter_In in Hin. destruct Hin as [Hin Hlen].
  split; [apply Nat.ltb_lt in Hlen; lia |].
  split; [| now apply negb_true_iff in Hstop].
  pose proof (splitFrom_word_chars (replacePunctuation (toLowerCase text)) false []
                (replacePunctuation_chars _) (Forall_nil _)) as Hall.
  rewrite Forall_forall in Hall. now apply Hall.
Qed.

Lemma tokenize_tokens_witness :
  let token := utf16 "caf" in
  (3 <= List.length token)%nat
  /\ Forall (fun c => isWordChar c = true) token
  /\ isStopWord token = false.
Proof.
  intros token.
  apply (tokenize_tokens asciiLower
           (utf16 "The caf" ++ [233%N] ++ utf16 " is on the 2nd floor!") token).
  vm_compute. left. reflexivity.
Defined.

(** ** Search *)

Lemma has_In id results : has id results = true <-> In id (map fst results).
Proof.
  unfold has. rewrite existsb_exists. split.
  - intros [kv [Hin Heq]]. apply Nat.eqb_eq in Heq. subst id. now apply in_map.
  - intros Hin. apply in_map_iff in Hin. destruct Hin as [kv [Heq Hin]].
    exists kv. split; [exact Hin | now apply Nat.eqb_eq].
Qed.

Lemma NoDup_snoc (l : list nat) (x : nat) : NoDup l -> ~ In x l -> NoDup (l ++ [x]).
Proof.
  intros Hl Hx. apply NoDup_app; [exact Hl | repeat constructor; auto |].
  intros a Ha [Heq | []]. now subst a.
Qed.

(** The loop over the rows of one token: every row that passes the filter
    is added, provided no id comes twice. *)
Lemma matchLoop_ok projectId token : forall matches results,
  NoDup (map fst results
         ++ map match_id (filter (fun m => negb (otherProject projectId m)) matches)) ->
  matchLoop projectId token matches results
  = Ok (results
        ++ map (fun m => (match_id m, mkResult m [token]))
               (filter (fun m => negb (otherProject projectId m)) matches)).
Proof.
  induction matches as [| m matches IH]; intros results Hnd; simpl.
  - now rewrite app_nil_r.
  - simpl in Hnd. destruct (otherProject projectId m); simpl in Hnd |- *.
    + now apply IH.
    + destruct (has (match_id m) results) eqn:Hhas.
      * apply has_In in Hhas. apply NoDup_remove_2 in Hnd.
        exfalso. apply Hnd. apply in_or_app. now left.
      * rewrite IH.
        -- now rewrite <- app_assoc.
        -- rewrite map_app. simpl. now rewrite <- app_assoc.
Qed.

Lemma matchLoop_dup projectId token : forall matches results,
  NoDup (map fst results) ->
  ~ NoDup (map fst results
           ++ map match_id (filter (fun m => negb (otherProject projectId m)) matches)) ->
  matchLoop projectId token matches results = Throw searchFailed.
Proof.
  induction matches as [| m matches IH]; intros results Hkeys Hdup; simpl.
  - simpl in Hdup. rewrite app_nil_r in Hdup. contradiction.
  - simpl in Hdup. destruct (otherProject projectId m); simpl in Hdup |- *.
    + now apply IH.
    + destruct (has (match_id m) results) eqn:Hhas; [reflexivity |].
      apply IH.
      * rewrite map_app. simpl. apply NoDup_snoc; [exact Hkeys |].
        intros Hin. apply has_In in Hin. congruence.
      * rewrite map_app. simpl. now rewrite <- app_assoc.
Qed.

Lemma matchLoop_sound projectId token matches results results' :
  NoDup (map fst results) ->
  matchLoop projectId token matches results = Ok results' ->
  results' = results
             ++ map (fun m => (match_id m, mkResult m [token]))
                    (filter (fun m => negb (otherProject projectId m)) matches)
  /\ NoDup (map fst results
            ++ map match_id (filter (fun m => negb (otherProject projectId m)) matches)).
Proof.
  intros Hkeys Hrun.
  destruct (NoDup_dec Nat.eq_dec
              (map fst results
               ++ map match_id
                      (filter (fun m => negb (otherProject projectId m)) matches)))
    as [Hnd | Hdup].
  - rewrite (matchLoop_ok _ _ _ _ Hnd) in Hrun. inversion Hrun. now split.
  - rewrite (matchLoop_dup _ _ _ _ Hkeys Hdup) in Hrun. discriminate.
Qed.

Lemma entriesOf_keys searchDB projectId queryTokens :
  map fst (entriesOf searchDB projectId queryTokens)
  = map match_id (hitsOf searchDB projectId queryTokens).
Proof.
  unfold entriesOf, hitsOf.
  induction queryTokens as [| token rest IH]; [reflexivity |].
  simpl. rewrite !map_app, IH, map_map. reflexivity.
Qed.

Lemma entriesOf_hits searchDB projectId queryTokens :
  map (fun kv => hit (snd kv)) (entriesOf searchDB projectId queryTokens)
  = hitsOf searchDB projectId queryTokens.
Proof.
  unfold entriesOf, hitsOf.
  induction queryTokens as [| token rest IH]; [reflexivity |].
  simpl. rewrite !map_app, IH, map_map. simpl. now rewrite map_id.
Qed.

Lemma tokenLoop_dup searchDB projectId : forall queryTokens results,
  NoDup (map fst results) ->
  ~ NoDup (map fst results ++ map match_id (hitsOf searchDB projectId queryTokens)) ->
  tokenLoop searchDB projectId queryTokens results = Throw searchFailed.
Proof.
  induction queryTokens as [| token rest IH]; intros results Hkeys Hdup.
  - simpl in Hdup. rewrite app_nil_r in Hdup. contradiction.
  - simpl. unfold hitsOf in Hdup. simpl in Hdup. unfold keptOf at 1 in Hdup.
    destruct (searchDB (likePattern token)) as [matches |]; [| reflexivity].
    destruct (matchLoop projectId token matches results) as [results1 | e] eqn:Hm.
    + apply matchLoop_sound in Hm; [| exact Hkeys]. destruct Hm as [Hres Hnd].
      apply IH.
      * subst results1. rewrite map_app, map_map. exact Hnd.
      * subst results1. rewrite map_app, map_map. simpl.
        rewrite map_app, app_assoc in Hdup. exact Hdup.
    + destruct (NoDup_dec Nat.eq_dec
                  (map fst results
                   ++ map match_id
                          (filter (fun m => negb (otherProject projectId m)) matches)))
        as [Hnd | Hdup1].
      * rewrite (matchLoop_ok _ _ _ _ Hnd) in Hm. discriminate.
      * rewrite (matchLoop_dup _ _ _ _ Hkeys Hdup1) in Hm. congruence.
Qed.

Lemma tokenLoop_sound searchDB projectId : forall queryTokens results results',
  NoDup (map fst results) ->
  tokenLoop searchDB projectId queryTokens results = Ok results' ->
  results' = results ++ entriesOf searchDB projectId queryTokens
  /\ NoDup (map fst results')
  /\ forall token, In token queryTokens -> searchDB (likePattern token) <> None.
Proof.
  induction queryTokens as [| token rest IH]; intros results results' Hkeys Hrun.
  - simpl in Hrun. inversion Hrun; subst. rewrite app_nil_r.
    split; [reflexivity |]. split; [exact Hkeys |]. intros token [].
  - simpl in Hrun. unfold entriesOf. simpl. unfold keptOf at 1.
    destruct (searchDB (likePattern token)) as [matches |] eqn:Hdb; [| discriminate].
    destruct (matchLoop projectId token matches results) as [results1 | e] eqn:Hm;
      [| discriminate].
    apply matchLoop_sound in Hm; [| exact Hkeys]. destruct Hm as [Hres Hnd].
    assert (Hkeys1 : NoDup (map fst results1)).
    { subst results1. rewrite map_app, map_map. exact Hnd. }
    destruct (IH _ _ Hkeys1 Hrun) as [Hres' [Hnd' Hdb']].
    split; [| split; [exact Hnd' |]].
    + rewrite Hres', Hres, <- app_assoc. reflexivity.
    + intros token' [Heq | Hin]; [subst token'; congruence | now apply Hdb'].
Qed.

Lemma insertByRank_perm x l : Permutation (insertByRank x l) (x :: l).
Proof.
  induction l as [| y l IH]; simpl; [reflexivity |].
  destruct (rank (hit x) <? rank (hit y))%Z; [| reflexivity].
  rewrite IH. apply perm_swap.
Qed.

Lemma sortByRank_perm l : Permutation (sortByRank l) l.
Proof.
  induction l as [| x l IH]; simpl; [reflexivity |].
  rewrite insertByRank_perm. now constructor.
Qed.

Lemma insertByRank_sorted x l :
  Sorted (fun a b => (rank (hit b) <= rank (hit a))%Z) l ->
  Sorted (fun a b => (rank (hit b) <= rank (hit a))%Z) (insertByRank x l).
Proof.
  induction l as [| y l IH]; intros Hs; simpl.
  - repeat constructor.
  - destruct (rank (hit x) <? rank (hit y))%Z eqn:E.
    + apply Z.ltb_lt in E. inversion Hs as [| ? ? Hs' Hhd]; subst.
      constructor; [now apply IH |].
      destruct l as [| z l]; simpl.
      * constructor. lia.
      * destruct (rank (hit x) <? rank (hit z))%Z.
        -- inversion Hhd; subst. now constructor.
        -- constructor. lia.
    + apply Z.ltb_ge in E. constructor; [exact Hs |]. now constructor.
Qed.

Lemma sortByRank_sorted l :
  Sorted (fun a b => (rank (hit b) <= rank (hit a))%Z) (sortByRank l).
Proof.
  induction l as [| x l IH]; simpl; [constructor | now apply insertByRank_sorted].
Qed.

(** A search that meets the same meeting twice fails.  When the rows that
    pass the project filter, taken over all tokens of the query, hold some
    meeting id more than once (two tokens of the query found in one
    meeting, or one token found in two index entries of different rank),
    [searchMeetings] throws [Failed to search meetings]: the ranks are
    not added up. *)
Theorem searchMeetings_repeated_meeting_fails
        (toLowerCase : jsstring -> jsstring) (searchDB : jsstring -> option (list Match))
        (query : jsstring) (projectId : option nat) :
  trim query <> [] ->
  ~ NoDup (map match_id (hitsOf searchDB projectId (tokenize toLowerCase query))) ->
  searchMeetings toLowerCase searchDB query projectId = Throw searchFailed.
Proof.
  intros Hq Hdup. unfold searchMeetings.
  destruct (trim query) as [| c q]; [congruence |].
  destruct (tokenize toLowerCase query) as [| token rest].
  - exfalso. apply Hdup. constructor.
  - now rewrite (tokenLoop_dup searchDB projectId (token :: rest) [] (NoDup_nil _)).
Qed.

Lemma searchMeetings_repeated_meeting_fails_witness :
  searchMeetings asciiLower index_budget (utf16 "Budget review") None
  = Throw searchFailed.
Proof.
  apply (searchMeetings_repeated_meeting_fails asciiLower index_budget
           (utf16 "Budget review") None).
  - vm_compute. discriminate.
  - vm_compute. intros H. inversion H as [| ? ? _ H1]; subst.
    inversion H1 as [| ? ? Hin _]; subst. apply Hin. left. reflexivity.
Defined.

(** What a search that resolves returns.  The results are in descending
    order of rank and no meeting comes twice; each result is a row the
    database returned for one token of the query, passed by the project
    filter, and names exactly that token as matched; and every such row
    is among the results. *)
Theorem searchMeetings_results
        (toLowerCase : jsstring -> jsstring) (searchDB : jsstring -> option (list Match))
        (query : jsstring) (projectId : option nat) (results : list Result) :
  searchMeetings toLowerCase searchDB query projectId = Ok results ->
  Sorted (fun a b => (rank (hit b) <= rank (hit a))%Z) results
  /\ NoDup (map (fun r => match_id (hit r)) results)
  /\ Forall (fun r => exists token,
                 In token (tokenize toLowerCase query)
                 /\ matchedTokens r = [token]
                 /\ In (hit r) (keptOf searchDB projectId token)) results
  /\ Permutation (map hit results)
                 (match trim query with
                  | [] => []
                  | _ => hitsOf searchDB projectId (tokenize toLowerCase query)
                  end).
Proof.
  unfold searchMeetings. intros Hrun.
  assert (Hnil : results = [] ->
                 Sorted (fun a b => (rank (hit b) <= rank (hit a))%Z) results
                 /\ NoDup (map (fun r => match_id (hit r)) results)
                 /\ Forall (fun r => exists token,
                                In token (tokenize toLowerCase query)
                                /\ matchedTokens r = [token]
                                /\ In (hit r) (keptOf searchDB projectId token)) results
                 /\ Permutation (map hit results) []).
  { intros ->. repeat split; constructor. }
  destruct (trim query) as [| c q].
  { inversion Hrun; subst. now apply Hnil. }
  destruct (tokenize toLowerCase query) as [| token rest] eqn:Htok.
  { inversion Hrun; subst. now apply Hnil. }
  destruct (tokenLoop searchDB projectId (token :: rest) []) as [found | e] eqn:Hloop;
    [| discriminate].
  inversion Hrun; subst results. clear Hrun Hnil.
  apply tokenLoop_sound in Hloop; [| constructor].
  destruct Hloop as [Hfound [Hnd _]]. rewrite app_nil_l in Hfound.
  pose proof (sortByRank_perm (map snd found)) as Hperm.
  split; [apply sortByRank_sorted |].
  split; [| split].
  - apply (Permutation_NoDup
             (l := map (fun r => match_id (hit r)) (map snd found))).
    + symmetry. now apply Permutation_map.
    + assert (Hk : map (fun kv => match_id (hit (snd kv))) found = map fst found).
      { rewrite Hfound.
        transitivity (map match_id
                          (map (fun kv => hit (snd kv))
                               (entriesOf searchDB projectId (token :: rest))));
          [now rewrite map_map |].
        rewrite entriesOf_hits. symmetry. apply entriesOf_keys. }
      rewrite map_map, Hk. exact Hnd.
  - apply Forall_forall. intros r Hin.
    apply (Permutation_in _ Hperm) in Hin.
    apply in_map_iff in Hin. destruct Hin as [kv [Hr Hin]].
    rewrite Hfound in Hin. unfold entriesOf in Hin.
    apply in_flat_map in Hin. destruct Hin as [token' [Htoken Hin]].
    apply in_map_iff in Hin. destruct Hin as [m [Hkv Hm]].
    exists token'. subst kv r. simpl. auto.
  - rewrite (Permutation_map hit Hperm), map_map, Hfound.
    now rewrite entriesOf_hits.
Qed.

Lemma searchMeetings_results_witness :
  let results := [mkResult (mkMatch 2 None 10 meeting2) [utf16 "budget"];
                  mkResult (mkMatch 1 (Some 4%nat) 3 meeting1) [utf16 "budget"]] in
  Sorted (fun a b => (rank (hit b) <= rank (hit a))%Z) results
  /\ NoDup (map (fun r => match_id (hit r)) results)
  /\ Forall (fun r => exists token,
                 In token (tokenize asciiLower (utf16 "the BUDGET?"))
                 /\ matchedTokens r = [token]
                 /\ In (hit r) (keptOf index_budget None token)) results
  /\ Permutation (map hit results)
                 (match trim (utf16 "the BUDGET?") with
                  | [] => []
                  | _ => hitsOf index_budget None (tokenize asciiLower (utf16 "the BUDGET?"))
                  end).
Proof.
  intros results.
  apply (searchMeetings_results asciiLower index_budget (utf16 "the BUDGET?") None results).
  vm_compute. reflexivity.
Defined.

(** ** What the pipeline resolves to *)







(** ** A run without failure *)

(** When every operation [processMeeting] awaits succeeds and the first
    five steps of the event loop are their completions, the promise is
    resolved and the row of the meeting holds the result, whatever steps
    follow, the timer included. *)
Theorem processMeeting_succeeds
        (sv : Services) (meetingId : nat) (PROCESSING_TIMEOUT : Z)
        (d : Db) (m : Meeting) (t : Transcription) (timestamp : nat)
        (summaryPath : string) (rest : list Tick) :
  d meetingId = Some m ->
  transcribed sv = Ok t ->
  saveTranscript sv = Some timestamp ->
  analyzeMeeting sv = None ->
  saveSummary sv = inr summaryPath ->
  buildSearchIndex sv = true ->
  outer (processMeeting sv meetingId PROCESSING_TIMEOUT d
                        ([Resume; Resume; Resume; Resume; Resume] ++ rest))
  = Resolved
  /\ db (processMeeting sv meetingId PROCESSING_TIMEOUT d
                        ([Resume; Resume; Resume; Resume; Resume] ++ rest)) meetingId
     = Some (successRow meetingId m t timestamp summaryPath).
Proof.
  intros Hrow Ht Hts Han Hsp Hidx.
  pose proof (orchInv_run sv meetingId PROCESSING_TIMEOUT m
                ([Resume; Resume; Resume; Resume; Resume] ++ rest)
                (mkOrch d (Suspended Transcribing) Pending) Hrow) as Hinv.
  fold (processMeeting sv meetingId PROCESSING_TIMEOUT d
                       ([Resume; Resume; Resume; Resume; Resume] ++ rest)) in Hinv.
  assert (Hout : outer (processMeeting sv meetingId PROCESSING_TIMEOUT d
                          ([Resume; Resume; Resume; Resume; Resume] ++ rest))
                 = Resolved).
  { unfold processMeeting. rewrite fold_left_app.
    rewrite run_outer_stable.
    - simpl. rewrite Ht. simpl. rewrite Hts. simpl. rewrite Han. simpl.
      rewrite Hsp, Hts. unfold recordSuccess, getMeetingById. rewrite Hrow, Ht.
      simpl. now rewrite Hidx.
    - simpl. rewrite Ht. simpl. rewrite Hts. simpl. rewrite Han. simpl.
      rewrite Hsp, Hts. unfold recordSuccess, getMeetingById. rewrite Hrow, Ht.
      simpl. rewrite Hidx. discriminate. }
  split; [exact Hout |].
  unfold orchInv in Hinv. rewrite Hout in Hinv.
  destruct Hinv as [_ [t' [timestamp' [summaryPath' [Ht' [Hts' [Hsp' Hdb]]]]]]].
  rewrite Hdb. congruence.
Qed.

Lemma processMeeting_succeeds_witness :
  let m := mkMeeting "Weekly sync" "2025-01-01" None (Some "uploads/a.webm"%string)
                     None None in
  let t := match transcribed services_ok with
           | Ok t => t
           | Throw _ => mkTranscription [] None 0 []
           end in
  let schedule := [Resume; Resume; Resume; Resume; Resume] ++ [Timer; Resume] in
  outer (processMeeting services_ok 7 timeout7 db7 schedule) = Resolved
  /\ db (processMeeting services_ok 7 timeout7 db7 schedule) 7%nat
     = Some (successRow 7 m t 1234 "/storage/summaries/meeting-7-1234.json").
Proof.
  intros m t schedule.
  apply (processMeeting_succeeds services_ok 7 timeout7 db7 m t 1234
           "/storage/summaries/meeting-7-1234.json" [Timer; Resume]);
    vm_compute; reflexivity.
Defined.
